(** * Textually similar documents: shingling, MinHash signatures and their comparison

    A shallow embedding of [document_similarity.py] and the properties of its
    core functions [shingling], [compare_sets], [generate_random_coefficient],
    [min_hashing] and [compare_signatures].

    Conventions of the embedding
    - Python [int] is [Z]; a Python [str] is the list of its code points; a
      [bytes] object is the list of its byte values.
    - A Python [set] of ints is a [gset Z]; iterating over it visits
      [elements] of the set ([min_hashing_order] shows that the order of the
      visit does not matter).
    - [np.array(l)] is the list [l] of its values, and [np.intersect1d]
      compares them as ints. This is what numpy does when every value fits
      a 64-bit integer ([is_int64]), as the hash values under the modulus
      [2^32 - 1] of the program do; beyond that range numpy stores floats,
      so every statement about the values of a signature is made for a
      modulus of absolute value at most [2^63] or for [is_int64] values.
      [len] of an array is the length of the list.
    - [None] in a list of hash values is [None : option Z].
    - A call that can raise returns an [outcome]: the value or the exception.
    - The true division [/] of two ints is the exact quotient as a [Q]; the
      float Python returns is that quotient correctly rounded, so it is [1.0]
      exactly when the quotient is [1] for all operands a list length can take.
    - [random.randint] reads the next value of a tape of draws. *)

From Stdlib Require Import ZArith QArith Lia List.
From stdpp Require Import base decidable option list numbers sets gmap strings sorting.

Local Open Scope Z_scope.
Set Warnings "-clear-no-such-hyp".

(** ** Exceptions and outcomes *)

Inductive exn : Type :=
  | ZeroDivisionError
  | IndexError
  | TypeError
  | ValueError
  | UnicodeEncodeError
  | AssertionError (msg : string).

Inductive outcome (A : Type) : Type :=
  | Returned (a : A)
  | Raised (e : exn).
Arguments Returned {A} a.
Arguments Raised {A} e.

#[global] Instance outcome_ret : MRet outcome := fun A a => Returned a.
#[global] Instance outcome_bind : MBind outcome := fun A B f m =>
  match m with
  | Returned a => f a
  | Raised e => Raised e
  end.

(** [for x in xs: acc = body x acc], stopping at the first exception. *)
Fixpoint for_each {A S : Type} (xs : list A) (body : A -> S -> outcome S) (acc : S)
  : outcome S :=
  match xs with
  | [] => Returned acc
  | x :: xs' => acc' ← body x acc; for_each xs' body acc'
  end.

(** [range(n)] for an int [n]: empty when [n <= 0]. *)
Definition range (n : Z) : list Z := seqZ 0 n.

(** [len(l)] as an int. *)
Definition len {A : Type} (l : list A) : Z := Z.of_nat (length l).

(** ** Strings, slices and UTF-8 *)

(** A slice bound of Python: negative bounds count from the end, and the
    result is clamped to [0, n]. *)
Definition slice_bound (n i : Z) : Z :=
  if i <? 0 then Z.max 0 (i + n) else Z.min i n.

(** [s[lo:hi]]. *)
Definition slice {A : Type} (s : list A) (lo hi : Z) : list A :=
  let n := len s in
  let lo' := slice_bound n lo in
  let hi' := slice_bound n hi in
  take (Z.to_nat (hi' - lo')) (drop (Z.to_nat lo') s).

(** The code points [str.encode] accepts: Unicode scalar values. *)
Definition is_scalar (c : Z) : bool :=
  (0 <=? c) && (c <? 1114112) && negb ((55296 <=? c) && (c <=? 57343)).

Definition continuation (c : Z) (shift : Z) : Z :=
  Z.lor 128 (Z.land (Z.shiftr c shift) 63).

(** The UTF-8 bytes of one code point. *)
Definition encode_char (c : Z) : outcome (list Z) :=
  if negb (is_scalar c) then Raised UnicodeEncodeError
  else if c <? 128 then Returned [c]
  else if c <? 2048 then
    Returned [Z.lor 192 (Z.shiftr c 6); continuation c 0]
  else if c <? 65536 then
    Returned [Z.lor 224 (Z.shiftr c 12); continuation c 6; continuation c 0]
  else
    Returned [Z.lor 240 (Z.shiftr c 18); continuation c 12; continuation c 6;
              continuation c 0].

(** [s.encode()]: UTF-8, strict. *)
Fixpoint encode (s : list Z) : outcome (list Z) :=
  match s with
  | [] => Returned []
  | c :: s' => bs ← encode_char c; rest ← encode s'; mret (bs ++ rest)
  end.

(** The code points of an ASCII literal, for examples. *)
Definition str (s : string) : list Z :=
  (fun a => Z.of_N (Ascii.N_of_ascii a)) <$> String.list_ascii_of_string s.

(** ** CRC-32 ([binascii.crc32]) *)

(** One bit of the reflected CRC-32 with polynomial [0xEDB88320]. *)
Definition crc_bit (crc : Z) : Z :=
  if Z.testbit crc 0 then Z.lxor (Z.shiftr crc 1) 3988292384
  else Z.shiftr crc 1.

Definition crc_byte (crc b : Z) : Z :=
  Nat.iter 8 crc_bit (Z.lxor crc b).

Definition crc32 (data : list Z) : Z :=
  Z.lxor (fold_left crc_byte data 4294967295) 4294967295.

(** ** [shingling] *)

(** One iteration of the loop of [shingling]. *)
Definition shingling_step (s : list Z) (k : Z) (i : Z) (h_shingles_set : gset Z)
  : outcome (gset Z) :=
  data ← encode (slice s i (i + k));
  let hashed_shingle := Z.land (crc32 data) 4294967295 in
  if decide (hashed_shingle ∉ h_shingles_set)
  then Returned ({[hashed_shingle]} ∪ h_shingles_set)
  else Returned h_shingles_set.

Definition shingling (s : list Z) (k : Z) : outcome (gset Z) :=
  for_each (range (len s - k + 1)) (shingling_step s k) ∅.

(** ** True division and [compare_sets] *)

(** [n / d] on ints: the exact quotient, or [ZeroDivisionError]. *)
Definition true_div (n d : Z) : outcome Q :=
  if d =? 0 then Raised ZeroDivisionError
  else Returned (Qmake (Z.sgn d * n) (Z.to_pos (Z.abs d))).

Definition set_len (s : gset Z) : Z := Z.of_nat (size s).

Definition compare_sets (set1 set2 : gset Z) : outcome Q :=
  true_div (set_len (set1 ∩ set2)) (set_len (set1 ∪ set2)).

(** ** [generate_random_coefficient] *)

(** A computation that draws from the tape of [random.randint] results: it
    finishes with a value and the unread tape, raises, or is still asking for
    a draw when the tape ends. *)
Inductive run (A : Type) : Type :=
  | Done (a : A) (rest : list Z)
  | Fault (e : exn)
  | Starved.
Arguments Done {A} a rest.
Arguments Fault {A} e.
Arguments Starved {A}.

Definition rand (A : Type) : Type := list Z -> run A.

#[global] Instance rand_ret : MRet rand := fun A a tape => Done a tape.
#[global] Instance rand_bind : MBind rand := fun A B f m tape =>
  match m tape with
  | Done a rest => f a rest
  | Fault e => Fault e
  | Starved => Starved
  end.

(** [random.randint(lo, hi)]: [ValueError] on an empty range, else the next
    draw. *)
Definition randint (lo hi : Z) : rand Z := fun tape =>
  if hi <? lo then Fault ValueError
  else match tape with
       | [] => Starved
       | d :: rest => Done d rest
       end.

(** [while random_num in tmp: random_num = random.randint(0, max_hash_value)] *)
Fixpoint resample (max_hash_value : Z) (tmp : gset Z) (random_num : Z)
    (tape : list Z) : run Z :=
  if decide (random_num ∈ tmp) then
    if max_hash_value <? 0 then Fault ValueError
    else match tape with
         | [] => Starved
         | d :: rest => resample max_hash_value tmp d rest
         end
  else Done random_num tape.

(** The [for] loop, [n] iterations left. *)
Fixpoint generate_loop (max_hash_value : Z) (n : nat) (tmp : gset Z)
    (random_numbers_list : list Z) : rand (list Z) :=
  match n with
  | O => mret random_numbers_list
  | S n' =>
      random_num ← randint 0 max_hash_value;
      if decide (random_num ∉ tmp) then
        generate_loop max_hash_value n' ({[random_num]} ∪ tmp)
          (random_numbers_list ++ [random_num])
      else
        random_num' ← resample max_hash_value tmp random_num;
        generate_loop max_hash_value n' tmp (random_numbers_list ++ [random_num'])
  end.

Definition generate_random_coefficient (max_hash_value no_of_hash_functions : Z)
  : rand (list Z) :=
  generate_loop max_hash_value (Z.to_nat no_of_hash_functions) ∅ [].

(** ** [min_hashing] *)

(** [l[i]] for a list and an int index. *)
Definition index {A : Type} (l : list A) (i : Z) : outcome A :=
  let j := if i <? 0 then i + len l else i in
  if j <? 0 then Raised IndexError
  else match l !! Z.to_nat j with
       | Some x => Returned x
       | None => Raised IndexError
       end.

(** [x % m] on ints: the remainder has the sign of [m]. *)
Definition py_mod (x m : Z) : outcome Z :=
  if m =? 0 then Raised ZeroDivisionError else Returned (x mod m).

Section min_hashing.
(** The module-level coefficient lists the function reads. *)
Variables random_coefficients_a random_coefficients_b : list Z.

(** The body of the inner loop, for hash function [i]. *)
Definition min_hashing_step (i max_hash_value : Z) (hash_shingle : Z)
    (min_hash_value : option Z) : outcome (option Z) :=
  a ← index random_coefficients_a i;
  b ← index random_coefficients_b i;
  hash_value ← py_mod (a * hash_shingle + b) max_hash_value;
  match min_hash_value with
  | None => Returned (Some hash_value)
  | Some m =>
      if hash_value <? m then Returned (Some hash_value)
      else Returned (Some m)
  end.

(** The body of the outer loop. *)
Definition min_hashing_row (hashed_shingles : list Z) (max_hash_value : Z)
    (i : Z) (signatures_list : list (option Z)) : outcome (list (option Z)) :=
  min_hash_value ←
    for_each hashed_shingles (min_hashing_step i max_hash_value) None;
  Returned (signatures_list ++ [min_hash_value]).

(** [np.array(signatures_list)] keeps the values and their order. *)
Definition min_hashing (hashed_shingle_set : gset Z)
    (no_of_hash_functions max_hash_value : Z) : outcome (list (option Z)) :=
  for_each (range no_of_hash_functions)
    (min_hashing_row (elements hashed_shingle_set) max_hash_value) [].
End min_hashing.

(** ** [compare_signatures] *)

(** The ints of an array, when it holds no [None]. *)
Definition as_ints (ar : list (option Z)) : option (list Z) := mapM id ar.

(** [ar.sort()]: ints are ordered; ordering two elements of which one is
    [None] raises [TypeError], and every sort of two or more elements compares
    each of them at least once. *)
Definition np_sort (ar : list (option Z)) : outcome (list (option Z)) :=
  match as_ints ar with
  | Some zs => Returned (Some <$> merge_sort Z.le zs)
  | None => if (length ar <=? 1)%nat then Returned ar else Raised TypeError
  end.

(** The elements that differ from their predecessor [prev]. *)
Fixpoint keep_changes {A : Type} `{EqDecision A} (prev : A) (l : list A) : list A :=
  match l with
  | [] => []
  | x :: l' =>
      if decide (x = prev) then keep_changes x l' else x :: keep_changes x l'
  end.

(** [aux[mask]] for [mask[:1] = True; mask[1:] = aux[1:] != aux[:-1]]: the
    first element and every element that differs from its predecessor. *)
Definition first_of_runs {A : Type} `{EqDecision A} (aux : list A) : list A :=
  match aux with
  | [] => []
  | x :: aux' => x :: keep_changes x aux'
  end.

(** [np.unique(ar)]: sort, then keep the first element of each run. *)
Definition np_unique (ar : list (option Z)) : outcome (list (option Z)) :=
  aux ← np_sort ar;
  Returned (first_of_runs aux).

(** [aux[:-1][aux[1:] == aux[:-1]]]: the elements equal to their successor. *)
Fixpoint equal_to_next {A : Type} `{EqDecision A} (aux : list A) : list A :=
  match aux with
  | x :: ((y :: _) as aux') =>
      if decide (y = x) then x :: equal_to_next aux' else equal_to_next aux'
  | _ => []
  end.

(** [np.intersect1d(ar1, ar2)]. *)
Definition intersect1d (ar1 ar2 : list (option Z)) : outcome (list (option Z)) :=
  u1 ← np_unique ar1;
  u2 ← np_unique ar2;
  aux ← np_sort (u1 ++ u2);
  Returned (equal_to_next aux).

Definition compare_signatures (minhash_signatures1 minhash_signatures2 : list (option Z))
  : outcome Q :=
  if decide (len minhash_signatures1 = len minhash_signatures2) then
    common ← intersect1d minhash_signatures1 minhash_signatures2;
    true_div (len common) (len minhash_signatures1)
  else Raised (AssertionError "The vector sizes are not the same").

(** ** Notions used by the statements *)

(** A string [str.encode] accepts: no lone surrogate. *)
Definition encodable (s : list Z) : Prop := Forall (fun c => is_scalar c = true) s.

(** The bytes of an encodable string. *)
Definition utf8 (s : list Z) : list Z :=
  match encode s with
  | Returned bs => bs
  | Raised _ => []
  end.

(** The hashed shingle of one window. *)
Definition shingle_of (w : list Z) : Z := Z.land (crc32 (utf8 w)) 4294967295.

(** The windows [s[i:i+k]] the loop of [shingling] visits, in order. *)
Definition windows (s : list Z) (k : Z) : list (list Z) :=
  (fun i => slice s i (i + k)) <$> range (len s - k + 1).

(** The number of positions at which two signatures hold equal values. *)
Definition agreements (sig1 sig2 : list (option Z)) : Z :=
  len (filter (fun p => p.1 = p.2) (zip sig1 sig2)).

(** The estimate in the words of the docstring of [compare_signatures]: the
    fraction of components in which two signatures of one length agree. *)
Definition positional_estimate (sig1 sig2 : list (option Z)) : outcome Q :=
  true_div (agreements sig1 sig2) (len sig1).

(** A draw [random.randint(0, max_hash_value)] can return. *)
Definition in_range (max_hash_value d : Z) : Prop := 0 <= d <= max_hash_value.

(** ** The comparison run of the main block (lines 183-219)

    The block is entered with [parsed_docs_map], the dict of the cleaned
    books in insertion order, [user_books_list], the names of the books, the
    shingle length [k] and the threshold [s]. What it prints is left out. The
    test [sim_score >= s] compares two floats; it is kept as a parameter
    [reaches_threshold] of the score, so that every statement holds for the
    test Python performs. *)

Inductive main_exn : Type :=
  | KeyError (key : string)
  | Uncaught (e : exn).

Inductive main_outcome (A : Type) : Type :=
  | Completed (a : A)
  | Crashed (e : main_exn).
Arguments Completed {A} a.
Arguments Crashed {A} e.

#[global] Instance main_outcome_ret : MRet main_outcome := fun A a => Completed a.
#[global] Instance main_outcome_bind : MBind main_outcome := fun A B f m =>
  match m with
  | Completed a => f a
  | Crashed e => Crashed e
  end.

(** The result of a call made by the block. *)
Definition call {A : Type} (o : outcome A) : main_outcome A :=
  match o with
  | Returned a => Completed a
  | Raised e => Crashed (Uncaught e)
  end.

(** A [for] loop of the block, stopping at the first exception. *)
Fixpoint for_main {A S : Type} (xs : list A) (body : A -> S -> main_outcome S)
    (acc : S) : main_outcome S :=
  match xs with
  | [] => Completed acc
  | x :: xs' => acc' ← body x acc; for_main xs' body acc'
  end.

(** [d[key]] for a dict kept as its items in insertion order. *)
Fixpoint items_get {V : Type} (items : list (string * V)) (key : string)
  : main_outcome V :=
  match items with
  | [] => Crashed (KeyError key)
  | (key', v) :: items' =>
      if decide (key' = key) then Completed v else items_get items' key
  end.

(** [d[key]] for a dict only read by key. *)
Definition dict_get {V : Type} (d : gmap string V) (key : string) : main_outcome V :=
  match d !! key with
  | Some v => Completed v
  | None => Crashed (KeyError key)
  end.

(** [itertools.combinations(l, 2)]. *)
Fixpoint combinations2 {A : Type} (l : list A) : list (A * A) :=
  match l with
  | [] => []
  | x :: l' => (pair x <$> l') ++ combinations2 l'
  end.

Definition no_of_hash_functions : Z := 100.
Definition max_hash_value : Z := 2 ^ 32 - 1.

(** How a run of the block ends: with its two lists, with an exception, or
    still waiting for a random draw. *)
Inductive main_run (A : Type) : Type :=
  | Finished (a : A)
  | Failed (e : main_exn)
  | Waiting.
Arguments Finished {A} a.
Arguments Failed {A} e.
Arguments Waiting {A}.

Section main.
Variable reaches_threshold : Q -> bool.

(** [hashed_shingles_docs[book] = shingling(parsed_docs_map[book], k)] *)
Definition shingle_book (parsed_docs_map : list (string * list Z)) (k : Z)
    (book : string) (hashed_shingles_docs : gmap string (gset Z))
  : main_outcome (gmap string (gset Z)) :=
  text ← items_get parsed_docs_map book;
  shingles ← call (shingling text k);
  mret (<[book := shingles]> hashed_shingles_docs).

(** [min_hashed_shingles_docs[book] = min_hashing(hashed_shingles_docs[book],
    no_of_hash_functions, max_hash_value)] *)
Definition min_hash_book (random_coefficients_a random_coefficients_b : list Z)
    (hashed_shingles_docs : gmap string (gset Z)) (book : string)
    (min_hashed_shingles_docs : gmap string (list (option Z)))
  : main_outcome (gmap string (list (option Z))) :=
  shingles ← dict_get hashed_shingles_docs book;
  signature ← call (min_hashing random_coefficients_a random_coefficients_b
                      shingles no_of_hash_functions max_hash_value);
  mret (<[book := signature]> min_hashed_shingles_docs).

(** The body of the loop over the pairs; the state is
    [(sim_books, not_sim_books)]. *)
Definition compare_pair (min_hashed_shingles_docs : gmap string (list (option Z)))
    (combination : string * string)
    (books : list (string * string * Q) * list (string * string * Q))
  : main_outcome (list (string * string * Q) * list (string * string * Q)) :=
  sig1 ← dict_get min_hashed_shingles_docs combination.1;
  sig2 ← dict_get min_hashed_shingles_docs combination.2;
  sim_score ← call (compare_signatures sig1 sig2);
  if reaches_threshold sim_score
  then mret (books.1 ++ [(combination.1, combination.2, sim_score)], books.2)
  else mret (books.1, books.2 ++ [(combination.1, combination.2, sim_score)]).

Definition main_comparison (parsed_docs_map : list (string * list Z))
    (user_books_list : list string) (k : Z) (tape : list Z)
  : main_run (list (string * string * Q) * list (string * string * Q)) :=
  match for_main user_books_list (shingle_book parsed_docs_map k) ∅ with
  | Crashed e => Failed e
  | Completed hashed_shingles_docs =>
      match generate_random_coefficient max_hash_value no_of_hash_functions tape with
      | Fault e => Failed (Uncaught e)
      | Starved => Waiting
      | Done random_coefficients_a tape' =>
          match generate_random_coefficient max_hash_value no_of_hash_functions tape' with
          | Fault e => Failed (Uncaught e)
          | Starved => Waiting
          | Done random_coefficients_b _ =>
              match
                min_hashed_shingles_docs ←
                  for_main user_books_list
                    (min_hash_book random_coefficients_a random_coefficients_b
                       hashed_shingles_docs) ∅;
                for_main (combinations2 parsed_docs_map.*1)
                  (compare_pair min_hashed_shingles_docs) ([], [])
              with
              | Crashed e => Failed e
              | Completed books => Finished books
              end
          end
      end
  end.
End main.

(** A value a numpy array of 64-bit ints holds: [np.array] and
    [np.intersect1d] keep such values as they are, and the model of both is
    the exact one for them. *)
Definition is_int64 (z : Z) : Prop :=
  -9223372036854775808 <= z < 9223372036854775808.

(** A byte value, and an unsigned 32-bit value. *)
Definition is_byte (b : Z) : Prop := 0 <= b < 256.
Definition is_u32 (x : Z) : Prop := 0 <= x < 4294967296.

(** ** Evaluations *)

Example crc32_check : crc32 (str "123456789") = 3421780262.
Proof. vm_compute. reflexivity. Qed.

Example shingling_aaaaaaa :
  shingling (str "aaaaaaa") 5 = Returned {[ crc32 (str "aaaaa") ]}.
Proof. vm_compute. reflexivity. Qed.

Example generate_dup :
  generate_random_coefficient 4294967295 3 [5; 5; 7; 7] = Done [5; 7; 7] [].
Proof. vm_compute. reflexivity. Qed.

Example min_hashing_ex :
  min_hashing [1; 2] [2; 1] {[1]} 2 4294967295 = Returned [Some 3; Some 3].
Proof. vm_compute. reflexivity. Qed.

Example compare_ex :
  compare_signatures [Some 3; Some 3] [Some 3; Some 3] = Returned (1 # 2).
Proof. vm_compute. reflexivity. Qed.

Example compare_none :
  compare_signatures [None] [None] = Raised TypeError.
Proof. vm_compute. reflexivity. Qed.

(** ** Loops *)

(** A loop whose steps commute does not depend on the order of iteration. *)
Lemma for_each_Permutation {A S} (body : A -> S -> outcome S) (xs ys : list A) :
  (forall x y acc, (body x acc ≫= body y) = (body y acc ≫= body x)) ->
  xs ≡ₚ ys -> forall acc, for_each xs body acc = for_each ys body acc.
Proof.
  intros Hcomm Hperm.
  induction Hperm as [|x xs ys _ IH|x y xs|xs ys zs _ IH1 _ IH2]; intros acc.
  - done.
  - cbn [for_each]. destruct (body x acc); simpl; [apply IH | done].
  - cbn [for_each]. pose proof (Hcomm x y acc) as Hxy.
    destruct (body y acc) as [a1|e1], (body x acc) as [a2|e2]; simpl in *;
      try done; try (by rewrite Hxy); try (by rewrite <- Hxy).
  - by rewrite IH1.
Qed.

Lemma for_each_ext {A S} (body body' : A -> S -> outcome S) (xs : list A) acc :
  (forall x a, body x a = body' x a) -> for_each xs body acc = for_each xs body' acc.
Proof.
  intros Hext. revert acc. induction xs as [|x xs IH]; intros acc; simpl; [done|].
  rewrite Hext. destruct (body' x acc); simpl; [apply IH | done].
Qed.

(** ** Shingling *)

Lemma encode_char_scalar c :
  is_scalar c = true -> exists bs, encode_char c = Returned bs.
Proof.
  intros Hc. unfold encode_char. rewrite Hc. simpl.
  repeat case_match; eauto.
Qed.

Lemma encode_encodable s : encodable s -> encode s = Returned (utf8 s).
Proof.
  intros Hs. unfold utf8.
  assert (exists bs, encode s = Returned bs) as [bs ->]; [|done].
  induction Hs as [|c s Hc _ [bs IH]]; simpl; [eauto|].
  destruct (encode_char_scalar c Hc) as [b ->]. rewrite IH. simpl. eauto.
Qed.

Lemma slice_encodable s lo hi : encodable s -> encodable (slice s lo hi).
Proof. intros Hs. unfold slice. by apply Forall_take, Forall_drop. Qed.

Lemma shingling_step_encodable s k i acc :
  encodable s ->
  shingling_step s k i acc = Returned ({[shingle_of (slice s i (i + k))]} ∪ acc).
Proof.
  intros Hs. unfold shingling_step.
  rewrite (encode_encodable _ (slice_encodable s i (i + k) Hs)). simpl.
  fold (shingle_of (slice s i (i + k))).
  case_decide as Hin; [done|]. f_equal.
  set_solver.
Qed.

Lemma shingling_loop s k idxs acc :
  encodable s ->
  for_each idxs (shingling_step s k) acc
  = Returned (list_to_set (shingle_of <$> ((fun i => slice s i (i + k)) <$> idxs)) ∪ acc).
Proof.
  intros Hs. revert acc. induction idxs as [|i idxs IH]; intros acc; simpl.
  - f_equal. set_solver.
  - rewrite shingling_step_encodable by done. simpl. rewrite IH.
    f_equal. set_solver.
Qed.

Lemma shingling_encodable s k :
  encodable s -> shingling s k = Returned (list_to_set (shingle_of <$> windows s k)).
Proof.
  intros Hs. unfold shingling. rewrite shingling_loop by done.
  f_equal. unfold windows. set_solver.
Qed.

Lemma size_list_to_set_le (l : list Z) :
  (size (list_to_set l : gset Z) <= length l)%nat.
Proof.
  induction l as [|x l IH].
  - by rewrite list_to_set_nil, size_empty.
  - rewrite list_to_set_cons, size_union_alt, size_singleton. simpl.
    assert (size (list_to_set l ∖ {[x]} : gset Z) <= size (list_to_set l : gset Z))%nat
      by (apply subseteq_size; set_solver).
    lia.
Qed.

Lemma length_windows s k : length (windows s k) = Z.to_nat (len s - k + 1).
Proof. unfold windows, range. by rewrite length_fmap, length_seqZ. Qed.

Lemma shingling_short s k : len s < k -> shingling s k = Returned ∅.
Proof. intros Hshort. unfold shingling, range. by rewrite seqZ_nil by lia. Qed.

(** C9. For every encodable string [s] and shingle length [k >= 1],
    [shingling] returns the set of the hashed windows of [s]; its size is at
    most [max(0, len(s) - k + 1)] and at most the number of distinct windows,
    so a repeated substring contributes one element. When [len(s) < k] the
    result is the empty set and nothing is raised, whatever [s] holds. *)
Theorem shingling_size (s : list Z) (k : Z) :
  1 <= k ->
  (len s < k -> shingling s k = Returned ∅) /\
  (encodable s ->
   exists S : gset Z,
     shingling s k = Returned S /\
     S = list_to_set (shingle_of <$> windows s k) /\
     (size S <= length (remove_dups (windows s k)))%nat /\
     Z.of_nat (size S) <= Z.max 0 (len s - k + 1)).
Proof.
  intros Hk. split.
  - apply shingling_short.
  - intros Hs. eexists. split; [by apply shingling_encodable|].
    split; [done|]. split.
    + transitivity (size (list_to_set (shingle_of <$> remove_dups (windows s k)) : gset Z)).
      * apply Nat.eq_le_incl. f_equal. apply set_eq. intros x.
        rewrite !elem_of_list_to_set, !list_elem_of_fmap.
        by setoid_rewrite elem_of_remove_dups.
      * etransitivity; [apply size_list_to_set_le|]. by rewrite length_fmap.
    + pose proof (size_list_to_set_le (shingle_of <$> windows s k)) as Hle.
      rewrite length_fmap, length_windows in Hle. lia.
Qed.

Lemma shingling_size_witness :
  shingling (str "aaaaaaa") 8 = Returned ∅ /\
  exists S : gset Z,
    shingling (str "aaaaaaa") 5 = Returned S /\
    S = list_to_set (shingle_of <$> windows (str "aaaaaaa") 5) /\
    (size S <= length (remove_dups (windows (str "aaaaaaa") 5)))%nat /\
    Z.of_nat (size S) <= Z.max 0 (len (str "aaaaaaa") - 5 + 1).
Proof.
  split.
  - apply (shingling_size (str "aaaaaaa") 8); [lia | reflexivity].
  - apply (shingling_size (str "aaaaaaa") 5); [lia | repeat constructor].
Defined.

(** ** MinHash signatures *)

Section min_hashing_facts.
Variables A B : list Z.
Variable M : Z.

Lemma index_lookup {X} (l : list X) (i : nat) x :
  l !! i = Some x -> index l (Z.of_nat i) = Returned x.
Proof.
  intros Hl. unfold index.
  destruct (Z.ltb_spec (Z.of_nat i) 0) as [|_]; [lia|].
  destruct (Z.ltb_spec (Z.of_nat i) 0) as [|_]; [lia|].
  by rewrite Nat2Z.id, Hl.
Qed.

(** With the coefficients of function [i] in place and a modulus other
    than [0], one step of the inner loop keeps the smaller value. *)
Lemma min_hashing_step_ok (i : nat) a b x acc :
  A !! i = Some a -> B !! i = Some b -> M <> 0 ->
  min_hashing_step A B (Z.of_nat i) M x acc
  = Returned (Some (match acc with
                    | None => (a * x + b) mod M
                    | Some m => Z.min ((a * x + b) mod M) m
                    end)).
Proof.
  intros Ha Hb HM. unfold min_hashing_step, py_mod.
  rewrite (index_lookup _ _ _ Ha), (index_lookup _ _ _ Hb). simpl.
  destruct (Z.eqb_spec M 0) as [|_]; [done|]. simpl.
  destruct acc as [m|]; [|done].
  destruct (Z.ltb_spec ((a * x + b) mod M) m); do 2 f_equal; lia.
Qed.

(** The inner loop, started from a value [m0]. *)
Lemma inner_loop_from (i : nat) a b xs m0 :
  A !! i = Some a -> B !! i = Some b -> M <> 0 ->
  exists m,
    for_each xs (min_hashing_step A B (Z.of_nat i) M) (Some m0) = Returned (Some m) /\
    (m = m0 \/ exists x, x ∈ xs /\ m = (a * x + b) mod M) /\
    m <= m0 /\
    (forall x, x ∈ xs -> m <= (a * x + b) mod M).
Proof.
  intros Ha Hb HM. revert m0.
  induction xs as [|x xs IH]; intros m0; simpl.
  - exists m0. split_and!; [done|by left|lia|]. intros x Hx. by apply elem_of_nil in Hx.
  - rewrite (min_hashing_step_ok i a b) by done. simpl.
    destruct (IH (Z.min ((a * x + b) mod M) m0)) as (m & Hrun & Hin & Hle & Hall).
    exists m. split_and!; [done| |lia|].
    + destruct Hin as [->|(y & Hy & ->)].
      * destruct (Z.min_spec ((a * x + b) mod M) m0) as [[_ ->]|[_ ->]];
          [right; exists x; split; [left|done] | by left].
      * right. exists y. split; [by right|done].
    + intros y Hy. apply elem_of_cons in Hy as [->|Hy]; [lia|by apply Hall].
Qed.

(** The inner loop over a non-empty iteration: the minimum of the hash
    values. *)
Lemma inner_loop_min (i : nat) a b xs :
  A !! i = Some a -> B !! i = Some b -> M <> 0 -> xs <> [] ->
  exists m,
    for_each xs (min_hashing_step A B (Z.of_nat i) M) None = Returned (Some m) /\
    (exists x, x ∈ xs /\ m = (a * x + b) mod M) /\
    (forall x, x ∈ xs -> m <= (a * x + b) mod M).
Proof.
  intros Ha Hb HM Hne. destruct xs as [|x xs]; [done|]. simpl.
  rewrite (min_hashing_step_ok i a b) by done. simpl.
  destruct (inner_loop_from i a b xs ((a * x + b) mod M)) as (m & Hrun & Hin & Hle & Hall);
    [done..|].
  exists m. split_and!; [done| |].
  - destruct Hin as [->|(y & Hy & ->)].
    + exists x. split; [left|done].
    + exists y. split; [by right|done].
  - intros y Hy. apply elem_of_cons in Hy as [->|Hy]; [lia|by apply Hall].
Qed.

Lemma min_hashing_row_ok xs i r acc :
  for_each xs (min_hashing_step A B i M) None = Returned r ->
  min_hashing_row A B xs M i acc = Returned (acc ++ [r]).
Proof. intros Hr. unfold min_hashing_row. by rewrite Hr. Qed.

Lemma min_hashing_step_comm i x y acc :
  (min_hashing_step A B i M x acc ≫= min_hashing_step A B i M y)
  = (min_hashing_step A B i M y acc ≫= min_hashing_step A B i M x).
Proof.
  unfold min_hashing_step, py_mod.
  destruct (index A i) as [a|]; [|done]. destruct (index B i) as [b|]; [|done].
  simpl. destruct (M =? 0); [done|]. simpl.
  destruct acc as [m|]; simpl;
    repeat (match goal with |- context [?u <? ?v] => destruct (Z.ltb_spec u v) end; simpl);
    do 2 f_equal; lia.
Qed.

(** The signature does not depend on the order in which the set is
    visited. *)
Lemma min_hashing_order (S : gset Z) (xs : list Z) (H : Z) :
  xs ≡ₚ elements S ->
  for_each (range H) (min_hashing_row A B xs M) [] = min_hashing A B S H M.
Proof.
  intros Hperm. unfold min_hashing. apply for_each_ext. intros i sig.
  unfold min_hashing_row.
  by rewrite (for_each_Permutation _ _ _ (min_hashing_step_comm i) Hperm).
Qed.

(** The outer loop appends one component per index, in the order of the
    indices. *)
Lemma outer_loop xs (f : Z -> option Z) idxs acc :
  (forall i, i ∈ idxs ->
     for_each xs (min_hashing_step A B i M) None = Returned (f i)) ->
  for_each idxs (min_hashing_row A B xs M) acc = Returned (acc ++ (f <$> idxs)).
Proof.
  revert acc. induction idxs as [|i idxs IH]; intros acc Hf; cbn [for_each].
  - by rewrite app_nil_r.
  - rewrite (min_hashing_row_ok xs i (f i)) by (apply Hf; left). simpl.
    rewrite IH by (intros j Hj; apply Hf; by right).
    by rewrite <- app_assoc.
Qed.
End min_hashing_facts.

(** What the inner loop leaves for hash function [i], [None] when it raises. *)
Lemma inner_loop_total A B M (xs : list Z) (H : Z) :
  xs = [] \/ (H <= len A /\ H <= len B /\ M <> 0) ->
  exists f : Z -> option Z,
    forall i, i ∈ range H ->
      for_each xs (min_hashing_step A B i M) None = Returned (f i).
Proof.
  intros Hcase.
  exists (fun i => match for_each xs (min_hashing_step A B i M) None with
                   | Returned r => r
                   | Raised _ => None
                   end).
  intros i Hi. destruct Hcase as [->|(HA & HB & HM)]; [done|].
  apply elem_of_seqZ in Hi. unfold len in HA, HB.
  destruct (lookup_lt_is_Some_2 A (Z.to_nat i)) as [a Ha]; [lia|].
  destruct (lookup_lt_is_Some_2 B (Z.to_nat i)) as [b Hb]; [lia|].
  destruct xs as [|x xs]; [done|].
  destruct (inner_loop_min A B M (Z.to_nat i) a b (x :: xs)) as (m & Hm & _); [done..|].
  rewrite Z2Nat.id in Hm by lia. by rewrite Hm.
Qed.

(** C10. For every shingle set and every hash-function count [H >= 0],
    [min_hashing] returns a vector of length exactly [H]: for the empty set
    whatever the coefficient lists and the modulus are, and for any other set
    when both coefficient lists hold at least [H] values and the modulus is
    not [0]. *)
Theorem min_hashing_length (A B : list Z) (S : gset Z) (H M : Z) :
  0 <= H ->
  S = ∅ \/ (H <= len A /\ H <= len B /\ M <> 0) ->
  exists sig, min_hashing A B S H M = Returned sig /\ len sig = H.
Proof.
  intros HH Hcase.
  destruct (inner_loop_total A B M (elements S) H) as [f Hf].
  { destruct Hcase as [->|?]; [left; apply elements_empty | by right]. }
  exists (f <$> range H). split.
  - unfold min_hashing. by rewrite (outer_loop A B M _ f).
  - unfold len, range. rewrite length_fmap, length_seqZ. lia.
Qed.

Lemma min_hashing_length_witness :
  (exists sig, min_hashing [] [] ∅ 3 0 = Returned sig /\ len sig = 3) /\
  (exists sig, min_hashing [1; 2] [2; 1] {[1]} 2 4294967295 = Returned sig /\ len sig = 2).
Proof.
  split.
  - apply (min_hashing_length [] [] ∅ 3 0); [lia | by left].
  - apply (min_hashing_length [1; 2] [2; 1] {[1]} 2 4294967295); [lia|].
    right. unfold len. simpl. lia.
Defined.

Lemma mod_int64 x M :
  M <> 0 -> -9223372036854775808 <= M <= 9223372036854775808 -> is_int64 (x mod M).
Proof.
  intros HM Hb. unfold is_int64.
  destruct (Z.lt_total M 0) as [Hneg|[->|Hpos]]; [|done|].
  - pose proof (Z.mod_neg_bound x M Hneg). lia.
  - pose proof (Z.mod_pos_bound x M Hpos). lia.
Qed.

(** C7. For every non-empty shingle set, hash family [(A, B)] of [H]
    functions and modulus [M] other than [0] of absolute value at most
    [2^63], [min_hashing] returns a signature of length [H] whose component
    [i] is the minimum over the shingles [x] of [(A[i] * x + B[i]) mod M], a
    64-bit int, in the order of the family. *)
Theorem min_hashing_spec (A B : list Z) (S : gset Z) (H M : Z) :
  S <> ∅ -> len A = H -> len B = H -> M <> 0 ->
  -9223372036854775808 <= M <= 9223372036854775808 ->
  exists sig,
    min_hashing A B S H M = Returned sig /\
    len sig = H /\
    forall (i : nat) a b,
      A !! i = Some a -> B !! i = Some b ->
      exists m,
        sig !! i = Some (Some m) /\
        is_int64 m /\
        (exists x, x ∈ S /\ m = (a * x + b) mod M) /\
        (forall x, x ∈ S -> m <= (a * x + b) mod M).
Proof.
  intros HS HA HB HM Hbound.
  assert (0 <= H) as HH by (unfold len in HA; lia).
  destruct (inner_loop_total A B M (elements S) H) as [f Hf]; [right; lia|].
  exists (f <$> range H). split_and!.
  - unfold min_hashing. by rewrite (outer_loop A B M _ f).
  - unfold len, range. rewrite length_fmap, length_seqZ. lia.
  - intros i a b Ha Hb.
    assert (Z.of_nat i < H) as Hi.
    { apply lookup_lt_Some in Ha. unfold len in HA. lia. }
    destruct (inner_loop_min A B M i a b (elements S)) as (m & Hm & Hin & Hall);
      [done..| |].
    { intros Hnil. by apply elements_empty_inv, leibniz_equiv in Hnil. }
    exists m. split_and!.
    + rewrite list_lookup_fmap. unfold range. rewrite lookup_seqZ_lt by done. simpl.
      f_equal. specialize (Hf (Z.of_nat i)). rewrite Hm in Hf.
      assert (Z.of_nat i ∈ range H) as Hr by (apply elem_of_seqZ; lia).
      specialize (Hf Hr). rewrite Z.add_0_l. congruence.
    + destruct Hin as (x & Hx & ->). by apply mod_int64.
    + destruct Hin as (x & Hx & ->). exists x. by rewrite <- elem_of_elements.
    + intros x Hx. apply Hall. by rewrite elem_of_elements.
Qed.

Lemma min_hashing_spec_witness :
  exists sig,
    min_hashing [1; 2] [2; 1] {[1; 5]} 2 4294967295 = Returned sig /\
    len sig = 2 /\
    forall (i : nat) a b,
      [1; 2] !! i = Some a -> [2; 1] !! i = Some b ->
      exists m,
        sig !! i = Some (Some m) /\
        is_int64 m /\
        (exists x, x ∈ ({[1; 5]} : gset Z) /\ m = (a * x + b) mod 4294967295) /\
        (forall x, x ∈ ({[1; 5]} : gset Z) -> m <= (a * x + b) mod 4294967295).
Proof.
  apply (min_hashing_spec [1; 2] [2; 1] {[1; 5]} 2 4294967295).
  - intros Hempty. assert (1 ∈ (∅ : gset Z)) as Hin by (rewrite <- Hempty; set_solver).
    set_solver.
  - reflexivity.
  - reflexivity.
  - lia.
  - lia.
Defined.

(** ** Comparing signatures *)

(** C8. For every pair of signatures of unequal length, [compare_signatures]
    raises the assertion error with its message: the length check is the
    first thing evaluated, so no element is read or compared and no score is
    returned. *)
Theorem compare_signatures_length_mismatch (sig1 sig2 : list (option Z)) :
  length sig1 <> length sig2 ->
  compare_signatures sig1 sig2
  = Raised (AssertionError "The vector sizes are not the same").
Proof.
  intros Hne. unfold compare_signatures, len.
  case_decide as Heq; [|done]. apply Nat2Z.inj in Heq. done.
Qed.

Lemma compare_signatures_length_mismatch_witness :
  compare_signatures [Some 1; Some 2] [Some 1]
  = Raised (AssertionError "The vector sizes are not the same").
Proof.
  apply (compare_signatures_length_mismatch [Some 1; Some 2] [Some 1]).
  simpl. lia.
Defined.

Section runs.
Context {X Y : Type} `{EqDecision X} `{EqDecision Y}.
Variable f : X -> Y.
Hypothesis f_inj : forall x y, f x = f y -> x = y.

Lemma keep_changes_fmap p l :
  keep_changes (f p) (f <$> l) = f <$> keep_changes p l.
Proof.
  revert p. induction l as [|x l IH]; intros p; simpl; [done|].
  destruct (decide (x = p)) as [->|Hne].
  - rewrite decide_True by done. apply IH.
  - rewrite decide_False by (intros Heq; by apply f_inj in Heq).
    simpl. f_equal. apply IH.
Qed.

Lemma first_of_runs_fmap l : first_of_runs (f <$> l) = f <$> first_of_runs l.
Proof. destruct l as [|x l]; simpl; [done|]. f_equal. apply keep_changes_fmap. Qed.

Lemma equal_to_next_fmap l : equal_to_next (f <$> l) = f <$> equal_to_next l.
Proof.
  induction l as [|x l IH]; [done|].
  destruct l as [|y l]; [done|].
  change (f <$> x :: y :: l) with (f x :: (f <$> (y :: l))).
  change (equal_to_next (x :: y :: l))
    with (if decide (y = x) then x :: equal_to_next (y :: l) else equal_to_next (y :: l)).
  change (equal_to_next (f x :: (f <$> y :: l)))
    with (if decide (f y = f x) then f x :: equal_to_next (f <$> y :: l)
          else equal_to_next (f <$> y :: l)).
  destruct (decide (y = x)) as [->|Hne].
  - rewrite decide_True by done. rewrite IH. done.
  - rewrite decide_False by (intros Heq; by apply f_inj in Heq). apply IH.
Qed.
End runs.

Section sorted_runs.
Implicit Types l u : list Z.

Lemma keep_changes_sorted p l :
  StronglySorted Z.le (p :: l) ->
  NoDup (keep_changes p l) /\ forall x, x ∈ keep_changes p l <-> x ∈ l /\ x <> p.
Proof.
  revert p. induction l as [|y l IH]; intros p Hs; simpl.
  - split; [constructor|]. intros x. rewrite elem_of_nil. tauto.
  - apply StronglySorted_inv in Hs as [Hs Hall].
    pose proof (IH y Hs) as [Hnd Hin].
    apply Forall_cons in Hall as [Hpy Hall].
    destruct (decide (y = p)) as [->|Hne].
    + split; [done|]. intros x. rewrite Hin, elem_of_cons. tauto.
    + split.
      * constructor; [|done]. rewrite Hin. tauto.
      * intros x. rewrite !elem_of_cons, Hin. split.
        -- intros [->|[Hx Hxy]]; [tauto|]. split; [tauto|].
           apply StronglySorted_inv in Hs as [_ Hys].
           rewrite Forall_forall in Hys. specialize (Hys x Hx). lia.
        -- intros [[->|Hx] Hxp]; [tauto|]. destruct (decide (x = y)); tauto.
Qed.

Lemma first_of_runs_sorted l :
  StronglySorted Z.le l ->
  NoDup (first_of_runs l) /\ forall x, x ∈ first_of_runs l <-> x ∈ l.
Proof.
  intros Hs. destruct l as [|p l]; simpl.
  - split; [constructor|done].
  - destruct (keep_changes_sorted p l Hs) as [Hnd Hin]. split.
    + constructor; [|done]. rewrite Hin. tauto.
    + intros x. rewrite !elem_of_cons, Hin.
      destruct (decide (x = p)); tauto.
Qed.

Lemma count_occ_tail_zero p l :
  Forall (Z.le p) l -> (forall y, head l = Some y -> y <> p) ->
  StronglySorted Z.le l -> count_occ Z.eq_dec l p = 0%nat.
Proof.
  intros Hall Hhd Hs. apply count_occ_not_In. intros Hin.
  destruct l as [|y l]; [done|].
  apply StronglySorted_inv in Hs as [_ Hyl].
  apply Forall_cons in Hall as [Hpy _].
  specialize (Hhd y eq_refl).
  destruct Hin as [->|Hin]; [done|].
  rewrite Forall_forall in Hyl. apply list_elem_of_In, Hyl in Hin. lia.
Qed.

(** In a sorted array where no value occurs more than twice, the elements
    equal to their successor are the values that occur twice, once each. *)
Lemma equal_to_next_sorted l :
  StronglySorted Z.le l ->
  (forall x, count_occ Z.eq_dec l x <= 2)%nat ->
  NoDup (equal_to_next l) /\
  forall x, x ∈ equal_to_next l <-> count_occ Z.eq_dec l x = 2%nat.
Proof.
  induction l as [|p l IH]; intros Hs Hcount.
  - split; [constructor|]. intros x. simpl. rewrite elem_of_nil. split; [done|lia].
  - apply StronglySorted_inv in Hs as [Hs Hall].
    assert (forall x, count_occ Z.eq_dec l x <= 2)%nat as Hcount'.
    { intros x. specialize (Hcount x). simpl in Hcount.
      destruct (Z.eq_dec p x); lia. }
    destruct (IH Hs Hcount') as [Hnd Hin].
    destruct l as [|y l].
    { split; [constructor|]. intros x. simpl. rewrite elem_of_nil.
      destruct (Z.eq_dec p x); split; (done || lia). }
    change (equal_to_next (p :: y :: l))
      with (if decide (y = p) then p :: equal_to_next (y :: l)
            else equal_to_next (y :: l)).
    destruct (decide (y = p)) as [->|Hne].
    + assert (count_occ Z.eq_dec (p :: l) p <= 1)%nat as Hp.
      { specialize (Hcount p). rewrite count_occ_cons_eq in Hcount by done. lia. }
      split.
      * constructor; [|done]. rewrite Hin. lia.
      * intros x. rewrite elem_of_cons, Hin.
        destruct (decide (x = p)) as [->|Hxp].
        -- rewrite (count_occ_cons_eq _ (p :: l)) by done.
           rewrite count_occ_cons_eq in Hp |- * by done. lia.
        -- rewrite (count_occ_cons_neq _ (p :: l)) by done. tauto.
    + split; [done|]. intros x. rewrite Hin.
      destruct (decide (x = p)) as [->|Hxp].
      * rewrite (count_occ_cons_eq _ (y :: l)) by done.
        rewrite (count_occ_tail_zero p (y :: l)); [lia|done| |done].
        intros ? [= <-]. done.
      * by rewrite (count_occ_cons_neq _ (y :: l)) by done.
Qed.

(** The common values of two duplicate-free arrays, read off their sorted
    concatenation. *)
Lemma equal_to_next_merge u1 u2 :
  NoDup u1 -> NoDup u2 ->
  length (equal_to_next (merge_sort Z.le (u1 ++ u2)))
  = size (list_to_set u1 ∩ list_to_set u2 : gset Z).
Proof.
  intros Hu1 Hu2.
  assert (forall x, count_occ Z.eq_dec (merge_sort Z.le (u1 ++ u2)) x
                    = (count_occ Z.eq_dec u1 x + count_occ Z.eq_dec u2 x)%nat) as Hc.
  { intros x. rewrite <- count_occ_app. revert x.
    apply (Permutation_count_occ Z.eq_dec), merge_sort_Permutation. }
  apply NoDup_ListNoDup in Hu1, Hu2.
  rewrite (NoDup_count_occ Z.eq_dec) in Hu1, Hu2.
  destruct (equal_to_next_sorted (merge_sort Z.le (u1 ++ u2))) as [Hnd Hin].
  { apply StronglySorted_merge_sort; apply _. }
  { intros x. rewrite Hc. specialize (Hu1 x). specialize (Hu2 x). lia. }
  rewrite <- (size_list_to_set (C := gset Z)) by done.
  f_equal. apply set_eq. intros x.
  rewrite elem_of_list_to_set, Hin, Hc, elem_of_intersection, !elem_of_list_to_set.
  rewrite !list_elem_of_In, !(count_occ_In Z.eq_dec).
  specialize (Hu1 x). specialize (Hu2 x). lia.
Qed.
End sorted_runs.

Lemma as_ints_Some zs : as_ints (Some <$> zs) = Some zs.
Proof. unfold as_ints. by apply mapM_fmap_Some. Qed.

Lemma as_ints_None ar : None ∈ ar -> as_ints ar = None.
Proof.
  intros Hin. unfold as_ints. apply mapM_None_2, Exists_exists.
  by exists None.
Qed.

Lemma np_sort_ints zs :
  np_sort (Some <$> zs) = Returned (Some <$> merge_sort Z.le zs).
Proof. unfold np_sort. by rewrite as_ints_Some. Qed.

Lemma np_sort_None ar :
  None ∈ ar ->
  np_sort ar = if (length ar <=? 1)%nat then Returned ar else Raised TypeError.
Proof. intros Hin. unfold np_sort. by rewrite as_ints_None. Qed.

Lemma np_unique_ints zs :
  np_unique (Some <$> zs) = Returned (Some <$> first_of_runs (merge_sort Z.le zs)).
Proof.
  unfold np_unique. rewrite np_sort_ints. simpl. f_equal.
  apply first_of_runs_fmap. congruence.
Qed.

Lemma intersect1d_ints zs1 zs2 :
  intersect1d (Some <$> zs1) (Some <$> zs2)
  = Returned (Some <$> equal_to_next
       (merge_sort Z.le (first_of_runs (merge_sort Z.le zs1)
                         ++ first_of_runs (merge_sort Z.le zs2)))).
Proof.
  unfold intersect1d. rewrite !np_unique_ints. simpl.
  rewrite <- fmap_app, np_sort_ints. simpl. f_equal.
  apply equal_to_next_fmap. congruence.
Qed.

Lemma first_of_runs_merge_sort zs :
  NoDup (first_of_runs (merge_sort Z.le zs)) /\
  (list_to_set (first_of_runs (merge_sort Z.le zs)) : gset Z) = list_to_set zs.
Proof.
  destruct (first_of_runs_sorted (merge_sort Z.le zs)) as [Hnd Hin].
  { apply StronglySorted_merge_sort; apply _. }
  split; [done|]. apply set_eq. intros x.
  rewrite !elem_of_list_to_set, Hin. by rewrite merge_sort_Permutation.
Qed.

(** On arrays of ints, [np.intersect1d] has as many elements as there are
    values present in both arrays. *)
Lemma intersect1d_ints_length zs1 zs2 :
  exists common,
    intersect1d (Some <$> zs1) (Some <$> zs2) = Returned common /\
    length common = size (list_to_set zs1 ∩ list_to_set zs2 : gset Z).
Proof.
  eexists. split; [apply intersect1d_ints|].
  destruct (first_of_runs_merge_sort zs1) as [Hnd1 Hset1].
  destruct (first_of_runs_merge_sort zs2) as [Hnd2 Hset2].
  rewrite length_fmap, equal_to_next_merge by done.
  by rewrite Hset1, Hset2.
Qed.

Lemma true_div_pos n d :
  0 < d -> true_div n d = Returned (n # Z.to_pos d).
Proof.
  intros Hd. unfold true_div.
  destruct (Z.eqb_spec d 0) as [|_]; [lia|].
  by rewrite Z.sgn_pos, Z.mul_1_l, Z.abs_eq by lia.
Qed.

(** The score of two int signatures of one length [H > 0]: the number of
    values present in both, over [H]. *)
Lemma compare_signatures_ints zs1 zs2 :
  length zs1 = length zs2 -> zs1 <> [] ->
  compare_signatures (Some <$> zs1) (Some <$> zs2)
  = Returned (Z.of_nat (size (list_to_set zs1 ∩ list_to_set zs2 : gset Z))
              # Z.to_pos (len zs1)).
Proof.
  intros Hlen Hne. unfold compare_signatures, len.
  rewrite !length_fmap, decide_True by congruence.
  destruct (intersect1d_ints_length zs1 zs2) as (common & -> & Hc). simpl.
  rewrite true_div_pos, Hc; [done|].
  destruct zs1; [done|simpl; lia].
Qed.

Lemma np_sort_length ar aux : np_sort ar = Returned aux -> length aux = length ar.
Proof.
  unfold np_sort. destruct (as_ints ar) as [zs|] eqn:Hzs.
  - intros [= <-]. rewrite length_fmap, merge_sort_Permutation.
    apply mapM_Some_1, Forall2_length in Hzs. done.
  - case_match; [|done]. by intros [= <-].
Qed.

Lemma first_of_runs_nonempty {X} `{EqDecision X} (l : list X) :
  l <> [] -> first_of_runs l <> [].
Proof. by destruct l. Qed.

Lemma np_unique_nonempty ar u : np_unique ar = Returned u -> ar <> [] -> u <> [].
Proof.
  unfold np_unique. destruct (np_sort ar) as [aux|] eqn:Hs; [|done].
  simpl. intros [= <-] Hne. apply first_of_runs_nonempty.
  apply np_sort_length in Hs. destruct aux, ar; done.
Qed.

Lemma np_unique_None ar u : np_unique ar = Returned u -> None ∈ ar -> None ∈ u.
Proof.
  unfold np_unique. intros Hu Hin. rewrite np_sort_None in Hu by done.
  destruct ar as [|x [|y ar]]; simpl in Hu; [by apply elem_of_nil in Hin| |done].
  injection Hu as <-. done.
Qed.

(** A signature holding [None] is never given a score: the comparison ends
    in an exception. *)
Lemma compare_signatures_None sig1 sig2 :
  None ∈ sig1 \/ None ∈ sig2 -> exists e, compare_signatures sig1 sig2 = Raised e.
Proof.
  intros Hnone. unfold compare_signatures.
  case_decide as Hlen; [|eauto]. apply Nat2Z.inj in Hlen.
  assert (sig1 <> [] /\ sig2 <> []) as [Hne1 Hne2].
  { destruct Hnone as [Hin|Hin]; destruct sig1, sig2; try done;
      by apply elem_of_nil in Hin. }
  unfold intersect1d.
  destruct (np_unique sig1) as [u1|e1] eqn:Hu1; [|simpl; eauto].
  destruct (np_unique sig2) as [u2|e2] eqn:Hu2; [|simpl; eauto].
  simpl.
  pose proof (np_unique_nonempty _ _ Hu1 Hne1) as Hn1.
  pose proof (np_unique_nonempty _ _ Hu2 Hne2) as Hn2.
  exists TypeError. rewrite np_sort_None.
  - destruct (Nat.leb_spec (length (u1 ++ u2)) 1) as [Hle|_]; [|done].
    rewrite length_app in Hle. destruct u1, u2; simpl in *; try done; lia.
  - apply elem_of_app. destruct Hnone as [Hin|Hin];
      [left; by eapply np_unique_None | right; by eapply np_unique_None].
Qed.

(** C1. [compare_signatures] does not return the fraction of agreeing
    positions. The document [ab] with [k = 2] has one shingle; under the hash
    family [A = [1; 2]], [B = [crc32(ab); 0]] its signature holds the same
    minimum twice. Compared with itself the signature agrees at 2 of 2
    positions, and [compare_signatures] returns 1/2. *)
Theorem compare_signatures_not_positional :
  shingling (str "ab") 2 = Returned {[2659403885]} /\
  min_hashing [1; 2] [2659403885; 0] {[2659403885]} 2 4294967295
  = Returned [Some 1023840475; Some 1023840475] /\
  positional_estimate [Some 1023840475; Some 1023840475]
    [Some 1023840475; Some 1023840475] = Returned (2 # 2) /\
  compare_signatures [Some 1023840475; Some 1023840475]
    [Some 1023840475; Some 1023840475] = Returned (1 # 2) /\
  ~ (1 # 2 == 2 # 2)%Q.
Proof.
  split_and!; try (vm_compute; reflexivity).
  intros Heq. vm_compute in Heq. discriminate.
Qed.

(** C4. [generate_random_coefficient] can return a list with a repeated
    value: a resampled value is appended without being recorded in [tmp], so
    a later draw of the same value passes the membership test. With the draws
    5, 5, 7, 7 the list is [5; 7; 7]. *)
Theorem generate_random_coefficient_duplicate :
  Forall (in_range 4294967295) [5; 5; 7; 7] /\
  generate_random_coefficient 4294967295 3 [5; 5; 7; 7] = Done [5; 7; 7] [] /\
  ~ NoDup [5; 7; 7].
Proof.
  split_and!.
  - repeat constructor; done.
  - vm_compute. reflexivity.
  - intros Hnd. apply NoDup_cons in Hnd as [_ Hnd].
    apply NoDup_cons in Hnd as [Hnotin _]. apply Hnotin. by left.
Qed.

(** C5, as the claim states it, fails: for two empty sets the division
    raises. *)
Lemma compare_sets_empty_raises :
  compare_sets ∅ ∅ = Raised ZeroDivisionError.
Proof. vm_compute. reflexivity. Qed.

(** C5 (amended). [compare_sets] raises [ZeroDivisionError] exactly when both
    sets are empty, and returns the size of the intersection over the size
    of the union for every other pair. *)
Theorem compare_sets_quotient (set1 set2 : gset Z) :
  compare_sets set1 set2
  = if decide (set1 ∪ set2 = ∅) then Raised ZeroDivisionError
    else Returned (set_len (set1 ∩ set2) # Z.to_pos (set_len (set1 ∪ set2))).
Proof.
  unfold compare_sets. case_decide as Hempty.
  - rewrite Hempty. unfold set_len at 2. by rewrite size_empty.
  - apply true_div_pos. unfold set_len.
    assert (size (set1 ∪ set2) <> 0%nat); [|lia].
    intros Hz. by apply size_empty_inv, leibniz_equiv in Hz.
Qed.

(** ** Empty shingle sets *)

(** C3, as the claim states it, fails: a document shorter than [k] has the
    empty shingle set, and for it [min_hashing] raises nothing and fills the
    component with [None]. *)
Lemma empty_shingle_set_sentinel :
  shingling (str "ab") 3 = Returned ∅ /\
  min_hashing [1] [2] ∅ 1 4294967295 = Returned [None].
Proof. split; vm_compute; reflexivity. Qed.

Lemma min_hashing_empty A B (H M : Z) :
  min_hashing A B ∅ H M = Returned (replicate (Z.to_nat H) None).
Proof.
  unfold min_hashing. rewrite elements_empty.
  rewrite (outer_loop A B M [] (fun _ => None)) by done.
  simpl. f_equal. rewrite (const_fmap _ _ None) by done.
  unfold range. by rewrite length_seqZ.
Qed.

(** ** Identical documents *)

Lemma shingling_nonempty s k :
  k <= len s -> (list_to_set (shingle_of <$> windows s k) : gset Z) <> ∅.
Proof.
  intros Hk. unfold windows, range. rewrite seqZ_cons by lia.
  rewrite !fmap_cons, list_to_set_cons. set_solver.
Qed.

(** For a non-empty set every component is an int. *)
Lemma min_hashing_ints A B (S : gset Z) (H M : Z) :
  S <> ∅ -> H <= len A -> H <= len B -> M <> 0 ->
  exists zs, min_hashing A B S H M = Returned (Some <$> zs) /\ length zs = Z.to_nat H.
Proof.
  intros HS HA HB HM.
  destruct (inner_loop_total A B M (elements S) H) as [f Hf]; [by right|].
  exists ((fun i => default 0 (f i)) <$> range H). split.
  - unfold min_hashing. rewrite (outer_loop A B M _ f) by done. simpl. f_equal.
    rewrite <- list_fmap_compose. apply Forall_fmap_ext_1, Forall_forall.
    intros i Hi. specialize (Hf i Hi). apply elem_of_seqZ in Hi. unfold len in HA, HB.
    destruct (lookup_lt_is_Some_2 A (Z.to_nat i)) as [a Ha]; [lia|].
    destruct (lookup_lt_is_Some_2 B (Z.to_nat i)) as [b Hb]; [lia|].
    destruct (inner_loop_min A B M (Z.to_nat i) a b (elements S)) as (m & Hm & _);
      [done..| |].
    { intros Hnil. by apply elements_empty_inv, leibniz_equiv in Hnil. }
    rewrite Z2Nat.id in Hm by lia. rewrite Hm in Hf. simpl.
    injection Hf as <-. done.
  - unfold range. by rewrite length_fmap, length_seqZ.
Qed.

Lemma Qeq_self n : 0 < n -> (n # Z.to_pos n == 1)%Q.
Proof. intros Hn. unfold Qeq. simpl. rewrite Z2Pos.id by done. lia. Qed.

(** C2, as the claim states it, fails: two identical documents shorter than
    [k] have empty shingle sets, for which the exact similarity is not 1.0
    but a [ZeroDivisionError]. *)
Lemma identical_short_documents :
  shingling (str "a") 2 = Returned ∅ /\
  compare_sets ∅ ∅ = Raised ZeroDivisionError.
Proof. split; vm_compute; reflexivity. Qed.

(** C2 (amended). For two identical encodable documents of at least [k]
    characters, the same [k >= 1] and the same hash family of [H] functions
    with a modulus other than [0] of absolute value at most [2^63]: the two
    shingle sets are identical, the two signatures are identical, the exact
    similarity is 1, and when the [H >= 1] components of the signature are
    pairwise distinct the estimated similarity is 1. *)
Theorem identical_documents (doc1 doc2 : list Z) (k : Z) (A B : list Z) (H M : Z) :
  doc1 = doc2 -> encodable doc1 -> 1 <= k <= len doc1 ->
  len A = H -> len B = H -> M <> 0 ->
  -9223372036854775808 <= M <= 9223372036854775808 ->
  exists (S1 S2 : gset Z) (sig1 sig2 : list (option Z)),
    shingling doc1 k = Returned S1 /\
    shingling doc2 k = Returned S2 /\
    min_hashing A B S1 H M = Returned sig1 /\
    min_hashing A B S2 H M = Returned sig2 /\
    S1 = S2 /\
    sig1 = sig2 /\
    (exists q, compare_sets S1 S2 = Returned q /\ (q == 1)%Q) /\
    (NoDup sig1 -> 0 < H ->
     exists q, compare_signatures sig1 sig2 = Returned q /\ (q == 1)%Q).
Proof.
  intros <- Hdoc Hk HA HB HM Hbound.
  pose proof (shingling_encodable doc1 k Hdoc) as Hsh.
  pose proof (shingling_nonempty doc1 k (proj2 Hk)) as Hne.
  set (S := list_to_set (shingle_of <$> windows doc1 k) : gset Z) in *.
  destruct (min_hashing_ints A B S H M) as (zs & Hsig & Hlen); [done|lia|lia|done|].
  exists S, S, (Some <$> zs), (Some <$> zs).
  split_and!; try done.
  - exists (set_len (S ∩ S) # Z.to_pos (set_len (S ∪ S))). split.
    + unfold compare_sets. apply true_div_pos. unfold set_len.
      assert (size (S ∪ S) <> 0%nat); [|lia].
      intros Hz. apply size_empty_inv, leibniz_equiv in Hz. set_solver.
    + replace (S ∩ S) with S by set_solver. replace (S ∪ S) with S by set_solver.
      apply Qeq_self. unfold set_len.
      assert (size S <> 0%nat); [|lia].
      intros Hz. by apply size_empty_inv, leibniz_equiv in Hz.
  - intros Hnd HH. apply NoDup_fmap in Hnd; [|apply _].
    assert (zs <> []) as Hzs by (destruct zs; [simpl in Hlen; lia | done]).
    eexists. split; [by apply compare_signatures_ints|].
    replace (list_to_set zs ∩ list_to_set zs : gset Z) with (list_to_set zs : gset Z)
      by set_solver.
    rewrite size_list_to_set by done. apply Qeq_self.
    unfold len. destruct zs; [done | simpl; lia].
Qed.

Lemma identical_documents_witness :
  exists (S1 S2 : gset Z) (sig1 sig2 : list (option Z)),
    shingling (str "abcab") 2 = Returned S1 /\
    shingling (str "abcab") 2 = Returned S2 /\
    min_hashing [1; 2] [2; 1] S1 2 4294967295 = Returned sig1 /\
    min_hashing [1; 2] [2; 1] S2 2 4294967295 = Returned sig2 /\
    S1 = S2 /\
    sig1 = sig2 /\
    (exists q, compare_sets S1 S2 = Returned q /\ (q == 1)%Q) /\
    (NoDup sig1 -> 0 < 2 ->
     exists q, compare_signatures sig1 sig2 = Returned q /\ (q == 1)%Q).
Proof.
  apply (identical_documents (str "abcab") (str "abcab") 2 [1; 2] [2; 1] 2 4294967295).
  - reflexivity.
  - repeat constructor.
  - split; [lia | vm_compute; discriminate].
  - reflexivity.
  - reflexivity.
  - lia.
  - lia.
Defined.

Example identical_documents_distinct_minima :
  (S ← shingling (str "abcab") 2; min_hashing [1; 2] [2; 1] S 2 4294967295)
  = Returned [Some 901544791; Some 1023840476] /\
  compare_signatures [Some 901544791; Some 1023840476]
    [Some 901544791; Some 1023840476] = Returned (2 # 2).
Proof. split; vm_compute; reflexivity. Qed.

(** ** The resampling loop *)

(** As long as fewer than [M + 1] values are recorded, some value of
    [0 .. M] is not. *)
Lemma fresh_exists (tmp : gset Z) (M : Z) :
  Z.of_nat (size tmp) <= M -> exists f, in_range M f /\ f ∉ tmp.
Proof.
  intros Hsize.
  set (R := list_to_set (seqZ 0 (M + 1)) : gset Z).
  assert (size R = Z.to_nat (M + 1)) as HR.
  { unfold R. rewrite size_list_to_set by apply NoDup_seqZ. apply length_seqZ. }
  assert (0 < size (R ∖ tmp))%nat as Hpos.
  { rewrite size_difference_alt.
    assert (size (R ∩ tmp) <= size tmp)%nat by (apply subseteq_size; set_solver).
    lia. }
  destruct (size_pos_elem_of (R ∖ tmp) Hpos) as [f Hf].
  exists f. apply elem_of_difference in Hf as [Hf Hnot]. split; [|done].
  unfold R in Hf. apply elem_of_list_to_set, elem_of_seqZ in Hf.
  unfold in_range. lia.
Qed.

Lemma resample_fresh M tmp f tape : f ∉ tmp -> resample M tmp f tape = Done f tape.
Proof. intros Hf. destruct tape; simpl; by rewrite decide_False. Qed.

Lemma resample_starved_app M tmp d tape f ext :
  resample M tmp d tape = Starved -> f ∉ tmp ->
  resample M tmp d (tape ++ f :: ext) = Done f ext.
Proof.
  revert d. induction tape as [|x t IH]; intros d; simpl.
  - case_decide; [|done]. destruct (M <? 0); [done|].
    intros _ Hf. by apply resample_fresh.
  - case_decide; [|done]. destruct (M <? 0); [done|]. apply IH.
Qed.

Lemma resample_done_app M tmp d tape r rest ext :
  resample M tmp d tape = Done r rest ->
  resample M tmp d (tape ++ ext) = Done r (rest ++ ext) /\ exists pre, tape = pre ++ rest.
Proof.
  revert d. induction tape as [|x t IH]; intros d; simpl.
  - case_decide as Hd; [by destruct (M <? 0)|].
    intros [= <- <-]. split; [by apply resample_fresh | by exists []].
  - case_decide as Hd.
    + destruct (M <? 0); [done|]. intros Hr.
      destruct (IH _ Hr) as [Hrun [pre ->]]. split; [done|]. by exists (x :: pre).
    + intros [= <- <-]. split; [done | by exists []].
Qed.

Lemma resample_no_fault M tmp d tape e : 0 <= M -> resample M tmp d tape <> Fault e.
Proof.
  intros HM. revert d. induction tape as [|x t IH]; intros d; simpl;
    case_decide; try done; destruct (Z.ltb_spec M 0); try done; try lia; apply IH.
Qed.

Lemma resample_all_recorded M tmp d tape :
  0 <= M -> d ∈ tmp -> Forall (fun x => x ∈ tmp) tape ->
  resample M tmp d tape = Starved.
Proof.
  intros HM Hd Hall. revert d Hd.
  induction Hall as [|x t Hx _ IH]; intros d Hd; simpl;
    rewrite decide_True by done; destruct (Z.ltb_spec M 0); try lia; [done|].
  by apply IH.
Qed.

(** One iteration of the [for] loop, spelled out on the tape. *)
Lemma generate_loop_S M n tmp lst tape :
  generate_loop M (S n) tmp lst tape
  = if M <? 0 then Fault ValueError
    else match tape with
         | [] => Starved
         | d :: rest =>
             if decide (d ∉ tmp)
             then generate_loop M n ({[d]} ∪ tmp) (lst ++ [d]) rest
             else match resample M tmp d rest with
                  | Done r rest' => generate_loop M n tmp (lst ++ [r]) rest'
                  | Fault e => Fault e
                  | Starved => Starved
                  end
         end.
Proof.
  cbn [generate_loop]. unfold mbind, rand_bind, randint.
  destruct (M <? 0); [done|]. destruct tape as [|d rest]; [done|].
  by case_decide.
Qed.

Lemma generate_loop_no_fault M n tmp lst tape e :
  0 <= M -> generate_loop M n tmp lst tape <> Fault e.
Proof.
  intros HM. revert tmp lst tape.
  induction n as [|n IH]; intros tmp lst tape; [done|].
  rewrite generate_loop_S. destruct (Z.ltb_spec M 0); [lia|].
  destruct tape as [|d rest]; [done|]. case_decide; [apply IH|].
  pose proof (resample_no_fault M tmp d rest e HM) as Hr.
  destruct (resample M tmp d rest); [apply IH | congruence | done].
Qed.

(** Whatever has been drawn so far, some continuation of the draws lets the
    loop return, as long as an unrecorded value is left at every iteration. *)
Lemma generate_loop_can_finish M n tmp lst tape :
  Z.of_nat (size tmp) + Z.of_nat n <= M + 1 ->
  Forall (in_range M) tape ->
  exists ext l rest,
    Forall (in_range M) ext /\
    generate_loop M n tmp lst (tape ++ ext) = Done l rest /\
    length l = (length lst + n)%nat.
Proof.
  revert tmp lst tape. induction n as [|n IH]; intros tmp lst tape Hsize Htape.
  { exists [], lst, tape. split_and!; [done|by rewrite app_nil_r|simpl; lia]. }
  destruct (fresh_exists tmp M) as (f & Hf & Hfresh); [lia|].
  assert (0 <= M) as HM by (unfold in_range in Hf; lia).
  assert (forall d rest, generate_loop M (S n) tmp lst (d :: rest)
            = if decide (d ∉ tmp)
              then generate_loop M n ({[d]} ∪ tmp) (lst ++ [d]) rest
              else match resample M tmp d rest with
                   | Done r rest' => generate_loop M n tmp (lst ++ [r]) rest'
                   | Fault e => Fault e
                   | Starved => Starved
                   end) as Hstep.
  { intros d rest. rewrite generate_loop_S. destruct (Z.ltb_spec M 0); [lia|done]. }
  assert (Z.of_nat (size ({[f]} ∪ tmp)) + Z.of_nat n <= M + 1) as Hsize_f.
  { rewrite size_union by set_solver. rewrite size_singleton. lia. }
  destruct tape as [|d t].
  - destruct (IH ({[f]} ∪ tmp) (lst ++ [f]) [] Hsize_f) as (ext & l & rest & Hext & Hrun & Hlen);
      [done|].
    exists (f :: ext), l, rest. split_and!; [by constructor| |rewrite Hlen, length_app; simpl; lia].
    rewrite app_nil_l, Hstep, decide_True by done. apply Hrun.
  - apply Forall_cons in Htape as [Hd Ht].
    destruct (decide (d ∉ tmp)) as [Hdn|Hdin].
    + assert (Z.of_nat (size ({[d]} ∪ tmp)) + Z.of_nat n <= M + 1) as Hsize_d.
      { rewrite size_union by set_solver. rewrite size_singleton. lia. }
      destruct (IH ({[d]} ∪ tmp) (lst ++ [d]) t Hsize_d Ht)
        as (ext & l & rest & Hext & Hrun & Hlen).
      exists ext, l, rest. split_and!; [done| |rewrite Hlen, length_app; simpl; lia].
      rewrite <- app_comm_cons, Hstep, decide_True by done. apply Hrun.
    + destruct (resample M tmp d t) as [r rest'|e|] eqn:Hres.
      * destruct (resample_done_app M tmp d t r rest' [] Hres) as [_ [pre ->]].
        apply Forall_app in Ht as [_ Hrest'].
        destruct (IH tmp (lst ++ [r]) rest') as (ext & l & rest & Hext & Hrun & Hlen);
          [lia|done|].
        exists ext, l, rest. split_and!; [done| |rewrite Hlen, length_app; simpl; lia].
        rewrite <- app_comm_cons, Hstep, decide_False by done.
        destruct (resample_done_app M tmp d (pre ++ rest') r rest' ext Hres) as [-> _].
        apply Hrun.
      * by apply resample_no_fault in Hres.
      * destruct (IH tmp (lst ++ [f]) []) as (ext & l & rest & Hext & Hrun & Hlen);
          [lia|done|].
        exists (f :: ext), l, rest.
        split_and!; [by constructor| |rewrite Hlen, length_app; simpl; lia].
        rewrite <- app_comm_cons, Hstep, decide_False by done.
        rewrite (resample_starved_app M tmp d t f ext Hres Hfresh). apply Hrun.
Qed.

(** With two or more coefficients asked for, draws that are all [0] keep
    the loop resampling for as long as they last. *)
Lemma generate_starved M H (n : nat) :
  0 <= M -> 2 <= H -> generate_random_coefficient M H (replicate n 0) = Starved.
Proof.
  intros HM HH. unfold generate_random_coefficient.
  destruct (Z.to_nat H) as [|[|h]] eqn:Hh; [lia|lia|].
  rewrite generate_loop_S. destruct (Z.ltb_spec M 0); [lia|].
  destruct n as [|n]; [done|]. cbn [replicate]. rewrite decide_True by set_solver.
  rewrite generate_loop_S. destruct (Z.ltb_spec M 0); [lia|].
  destruct n as [|n]; [done|]. cbn [replicate]. rewrite decide_False by set_solver.
  rewrite resample_all_recorded; [done|done|set_solver|].
  apply Forall_replicate. set_solver.
Qed.

Lemma zero_tape tape : Forall (in_range 0) tape -> tape = replicate (length tape) 0.
Proof.
  induction 1 as [|d t Hd _ IH]; simpl; [done|].
  unfold in_range in Hd. f_equal; [lia|done].
Qed.

(** C6, as the claim states it, fails: with [max_hash_value = 0] and two
    coefficients asked for, every draw is [0], and on no tape of such draws,
    however long, does the generator return or raise. *)
Lemma generate_random_coefficient_never_returns :
  ~ exists tape,
      Forall (in_range 0) tape /\ generate_random_coefficient 0 2 tape <> Starved.
Proof.
  intros (tape & Hrange & Hrun). apply Hrun.
  rewrite (zero_tape tape Hrange). by apply generate_starved.
Qed.

(** C6 (amended). For [0 <= M] and [2 <= H <= M + 1] the resampling loop has
    no bound and no error: after any number of draws equal to [0] the
    generator is still drawing; on no tape does it raise; and every tape of
    draws can be continued so that it returns a list of [H] values. *)
Theorem resampling_unbounded (M H : Z) :
  0 <= M -> 2 <= H <= M + 1 ->
  (forall n : nat,
     Forall (in_range M) (replicate n 0) /\
     generate_random_coefficient M H (replicate n 0) = Starved) /\
  (forall tape,
     Forall (in_range M) tape ->
     (forall e, generate_random_coefficient M H tape <> Fault e) /\
     exists ext l rest,
       Forall (in_range M) ext /\
       generate_random_coefficient M H (tape ++ ext) = Done l rest /\
       len l = H).
Proof.
  intros HM HH. split.
  - intros n. split; [|apply generate_starved; lia].
    apply Forall_replicate. unfold in_range. lia.
  - intros tape Htape. split.
    + intros e. by apply generate_loop_no_fault.
    + destruct (generate_loop_can_finish M (Z.to_nat H) ∅ [] tape)
        as (ext & l & rest & Hext & Hrun & Hlen); [rewrite size_empty; lia|done|].
      exists ext, l, rest. split_and!; [done..|]. unfold len. simpl in Hlen. lia.
Qed.

Lemma resampling_unbounded_witness :
  (forall n : nat,
     Forall (in_range 10) (replicate n 0) /\
     generate_random_coefficient 10 2 (replicate n 0) = Starved) /\
  (forall tape,
     Forall (in_range 10) tape ->
     (forall e, generate_random_coefficient 10 2 tape <> Fault e) /\
     exists ext l rest,
       Forall (in_range 10) ext /\
       generate_random_coefficient 10 2 (tape ++ ext) = Done l rest /\
       len l = 2).
Proof. apply (resampling_unbounded 10 2); lia. Defined.

(** * Further properties of the functions *)

(** ** [compare_sets] *)

Lemma compare_sets_returns (set1 set2 : gset Z) :
  set1 ∪ set2 <> ∅ ->
  0 < set_len (set1 ∪ set2) /\
  0 <= set_len (set1 ∩ set2) <= set_len (set1 ∪ set2) /\
  compare_sets set1 set2
  = Returned (set_len (set1 ∩ set2) # Z.to_pos (set_len (set1 ∪ set2))).
Proof.
  intros Hne. unfold set_len.
  assert (size (set1 ∪ set2) <> 0%nat) as Hpos.
  { intros Hz. by apply size_empty_inv, leibniz_equiv in Hz. }
  assert (size (set1 ∩ set2) <= size (set1 ∪ set2))%nat as Hle
    by (apply subseteq_size; set_solver).
  split_and!; try lia.
  unfold compare_sets. apply true_div_pos. unfold set_len. lia.
Qed.

(** X1. The Jaccard similarity does not depend on the order of its two
    arguments: [compare_sets set1 set2] and [compare_sets set2 set1] are the
    same score, or the same [ZeroDivisionError]. *)
Theorem compare_sets_comm (set1 set2 : gset Z) :
  compare_sets set1 set2 = compare_sets set2 set1.
Proof.
  unfold compare_sets.
  by rewrite (comm_L (∩) set1 set2), (comm_L (∪) set1 set2).
Qed.

(** X2. For two sets that are not both empty [compare_sets] returns a score
    between 0 and 1; the score is 1 exactly when the two sets are equal and
    0 exactly when they share no element. *)
Theorem compare_sets_range (set1 set2 : gset Z) :
  set1 ∪ set2 <> ∅ ->
  exists q,
    compare_sets set1 set2 = Returned q /\
    (0 <= q <= 1)%Q /\
    ((q == 1)%Q <-> set1 = set2) /\
    ((q == 0)%Q <-> set1 ∩ set2 = ∅).
Proof.
  intros Hne. destruct (compare_sets_returns set1 set2 Hne) as (Hpos & Hle & Hrun).
  eexists. split; [exact Hrun|].
  split_and!.
  - unfold Qle. simpl. lia.
  - unfold Qle. simpl. rewrite Z2Pos.id by done. lia.
  - unfold Qeq. simpl. rewrite Z2Pos.id by done. split.
    + intros Heq.
      assert (set1 ∩ set2 = set1 ∪ set2) as Hsets.
      { apply set_subseteq_size_eq; [set_solver|]. unfold set_len in Heq. lia. }
      apply set_eq. intros x. split; intros Hx.
      * assert (x ∈ set1 ∩ set2) by (rewrite Hsets; set_solver). set_solver.
      * assert (x ∈ set1 ∩ set2) by (rewrite Hsets; set_solver). set_solver.
    + intros ->. replace (set2 ∩ set2) with set2 by set_solver.
      replace (set2 ∪ set2) with set2 by set_solver. lia.
  - unfold Qeq. simpl. unfold set_len. split.
    + intros Heq. apply leibniz_equiv, size_empty_inv. lia.
    + intros ->. rewrite size_empty. lia.
Qed.

Lemma compare_sets_range_witness :
  exists q,
    compare_sets {[1; 2]} {[2; 3]} = Returned q /\
    (0 <= q <= 1)%Q /\
    ((q == 1)%Q <-> ({[1; 2]} : gset Z) = {[2; 3]}) /\
    ((q == 0)%Q <-> ({[1; 2]} : gset Z) ∩ {[2; 3]} = ∅).
Proof.
  apply (compare_sets_range {[1; 2]} {[2; 3]}).
  intros Hempty. assert (1 ∈ (∅ : gset Z)) as Hin by (rewrite <- Hempty; set_solver).
  set_solver.
Defined.

(** ** [compare_signatures] *)

Lemma as_ints_cases (ar : list (option Z)) :
  (exists zs, ar = Some <$> zs) \/ None ∈ ar.
Proof.
  induction ar as [|[z|] ar [[zs ->]|Hnone]].
  - left. by exists [].
  - left. by exists (z :: zs).
  - right. by right.
  - right. by left.
  - right. by left.
Qed.

Lemma omap_id_Some (zs : list Z) : omap id (Some <$> zs) = zs.
Proof. induction zs as [|z zs IH]; csimpl; [done|]. by rewrite IH. Qed.

Lemma merge_sort_Permutation_eq (zs zs' : list Z) :
  zs ≡ₚ zs' -> merge_sort Z.le zs = merge_sort Z.le zs'.
Proof.
  intros Hperm. apply (Sorted_unique Z.le).
  - apply Sorted_merge_sort; apply _.
  - apply Sorted_merge_sort; apply _.
  - by rewrite !merge_sort_Permutation.
Qed.

(** Sorting does not depend on the order the array came in. *)
Lemma np_sort_Permutation (ar ar' : list (option Z)) :
  ar ≡ₚ ar' -> np_sort ar = np_sort ar'.
Proof.
  intros Hperm. destruct (as_ints_cases ar) as [[zs ->]|Hnone].
  - destruct (as_ints_cases ar') as [[zs' ->]|Hnone'].
    + rewrite !np_sort_ints. do 2 f_equal. apply merge_sort_Permutation_eq.
      rewrite <- (omap_id_Some zs), <- (omap_id_Some zs'). by rewrite Hperm.
    + rewrite <- Hperm in Hnone'. apply list_elem_of_fmap in Hnone' as (? & ? & ?). done.
  - assert (None ∈ ar') as Hnone' by (by rewrite <- Hperm).
    rewrite !np_sort_None by done. rewrite <- (Permutation_length Hperm).
    destruct ar as [|x [|y ar]]; simpl; [| |done].
    + by apply Permutation_nil_l in Hperm as <-.
    + by apply Permutation_singleton_l in Hperm as <-.
Qed.

Lemma np_unique_Permutation (ar ar' : list (option Z)) :
  ar ≡ₚ ar' -> np_unique ar = np_unique ar'.
Proof. intros Hperm. unfold np_unique. by rewrite (np_sort_Permutation ar ar'). Qed.

Lemma np_sort_raises ar e : np_sort ar = Raised e -> e = TypeError.
Proof.
  unfold np_sort. destruct (as_ints ar); [done|].
  destruct (length ar <=? 1)%nat; [done|]. by intros [= <-].
Qed.

Lemma np_unique_raises ar e : np_unique ar = Raised e -> e = TypeError.
Proof.
  unfold np_unique. destruct (np_sort ar) as [aux|e'] eqn:Hs; [done|].
  simpl. intros [= <-]. by apply np_sort_raises in Hs.
Qed.

(** X3. The estimate does not depend on the order of its two arguments,
    whatever the two arrays hold: [compare_signatures sig1 sig2] and
    [compare_signatures sig2 sig1] are the same score or the same
    exception. *)
Theorem compare_signatures_comm (sig1 sig2 : list (option Z)) :
  compare_signatures sig1 sig2 = compare_signatures sig2 sig1.
Proof.
  unfold compare_signatures.
  destruct (decide (len sig1 = len sig2)) as [Hlen|Hlen].
  - rewrite (decide_True (P := len sig2 = len sig1)) by done.
    rewrite Hlen. f_equal. unfold intersect1d.
    destruct (np_unique sig1) as [u1|e1] eqn:Hu1, (np_unique sig2) as [u2|e2] eqn:Hu2;
      simpl; try done.
    + by rewrite (np_sort_Permutation (u1 ++ u2) (u2 ++ u1)) by apply Permutation_app_comm.
    + apply np_unique_raises in Hu1 as ->. by apply np_unique_raises in Hu2 as ->.
  - by rewrite (decide_False (P := len sig2 = len sig1)) by done.
Qed.

(** X4. The estimate ignores the positions of the components: permuting the
    components of either signature changes neither the score nor the
    exception. *)
Theorem compare_signatures_Permutation (sig1 sig1' sig2 sig2' : list (option Z)) :
  sig1 ≡ₚ sig1' -> sig2 ≡ₚ sig2' ->
  compare_signatures sig1 sig2 = compare_signatures sig1' sig2'.
Proof.
  intros H1 H2. unfold compare_signatures, len, intersect1d.
  rewrite <- (Permutation_length H1), <- (Permutation_length H2).
  by rewrite (np_unique_Permutation _ _ H1), (np_unique_Permutation _ _ H2).
Qed.

Lemma compare_signatures_Permutation_witness :
  compare_signatures [Some 1; Some 2; Some 3] [Some 3; Some 4; Some 5]
  = compare_signatures [Some 3; Some 1; Some 2] [Some 4; Some 5; Some 3].
Proof.
  apply (compare_signatures_Permutation [Some 1; Some 2; Some 3] [Some 3; Some 1; Some 2]
           [Some 3; Some 4; Some 5] [Some 4; Some 5; Some 3]).
  - change ([Some 1; Some 2; Some 3] ≡ₚ [Some 3] ++ [Some 1; Some 2]).
    apply (Permutation_app_comm [Some 1; Some 2] [Some 3]).
  - change ([Some 3; Some 4; Some 5] ≡ₚ [Some 4; Some 5] ++ [Some 3]).
    apply (Permutation_app_comm [Some 3] [Some 4; Some 5]).
Defined.

Lemma size_list_to_set_NoDup (l : list Z) :
  size (list_to_set l : gset Z) = length l -> NoDup l.
Proof.
  induction l as [|x l IH]; [constructor|]. intros Hsize.
  rewrite list_to_set_cons in Hsize. simpl in Hsize.
  pose proof (size_list_to_set_le l) as Hle.
  destruct (decide (x ∈ l)) as [Hin|Hnotin].
  - replace ({[x]} ∪ list_to_set l : gset Z) with (list_to_set l : gset Z) in Hsize
      by set_solver.
    lia.
  - rewrite size_union, size_singleton in Hsize by set_solver.
    constructor; [done|]. apply IH. lia.
Qed.

(** X5. For two signatures of 64-bit ints of one length [H >= 1],
    [compare_signatures] returns the number of distinct values that occur in
    both, over [H]: a score between 0 and 1 that is 0 exactly when the
    signatures share no value, and 1 exactly when neither signature repeats
    a value and one is a rearrangement of the other. *)
Theorem compare_signatures_value_sets (zs1 zs2 : list Z) :
  Forall is_int64 zs1 -> Forall is_int64 zs2 ->
  length zs1 = length zs2 -> zs1 <> [] ->
  exists q,
    compare_signatures (Some <$> zs1) (Some <$> zs2) = Returned q /\
    q = (Z.of_nat (size (list_to_set zs1 ∩ list_to_set zs2 : gset Z))
         # Z.to_pos (len zs1)) /\
    (0 <= q <= 1)%Q /\
    ((q == 0)%Q <-> forall x, x ∈ zs1 -> x ∉ zs2) /\
    ((q == 1)%Q <-> NoDup zs1 /\ zs1 ≡ₚ zs2).
Proof.
  intros _ _ Hlen Hne. eexists. split; [by apply compare_signatures_ints|].
  split; [done|].
  set (S1 := list_to_set zs1 : gset Z). set (S2 := list_to_set zs2 : gset Z).
  assert (0 < len zs1) as Hpos by (unfold len; destruct zs1; [done | simpl; lia]).
  pose proof (size_list_to_set_le zs1) as Hle1. fold S1 in Hle1.
  pose proof (size_list_to_set_le zs2) as Hle2. fold S2 in Hle2.
  assert (size (S1 ∩ S2) <= size S1)%nat as Hsub1 by (apply subseteq_size; set_solver).
  assert (size (S1 ∩ S2) <= size S2)%nat as Hsub2 by (apply subseteq_size; set_solver).
  unfold len in *. split_and!.
  - unfold Qle. simpl. lia.
  - unfold Qle. simpl. rewrite Z2Pos.id by done. lia.
  - unfold Qeq. simpl. split.
    + intros Hz x Hx1 Hx2.
      assert (S1 ∩ S2 = ∅) as Hempty by (apply leibniz_equiv, size_empty_inv; lia).
      assert (x ∈ S1 ∩ S2) as Hx by (unfold S1, S2; set_solver).
      rewrite Hempty in Hx. set_solver.
    + intros Hdisj. replace (S1 ∩ S2) with (∅ : gset Z).
      * rewrite size_empty. lia.
      * symmetry. apply set_eq. intros x. unfold S1, S2.
        rewrite elem_of_intersection, !elem_of_list_to_set. split; [|set_solver].
        intros [Hx1 Hx2]. by destruct (Hdisj x Hx1).
  - unfold Qeq. simpl. rewrite Z2Pos.id by done. split.
    + intros Hone.
      assert (size (S1 ∩ S2) = length zs1) as Hfull by lia.
      assert (S1 ∩ S2 = S1) as HS1 by (apply set_subseteq_size_eq; [set_solver|lia]).
      assert (S1 ∩ S2 = S2) as HS2 by (apply set_subseteq_size_eq; [set_solver|lia]).
      assert (NoDup zs1) as Hnd1 by (apply size_list_to_set_NoDup; fold S1; lia).
      assert (NoDup zs2) as Hnd2 by (apply size_list_to_set_NoDup; fold S2; lia).
      split; [done|]. apply NoDup_Permutation; [done..|].
      intros x. rewrite <- !(elem_of_list_to_set (C := gset Z)).
      fold S1 S2. by rewrite <- HS1, HS2 at 1.
    + intros [Hnd Hperm].
      replace S2 with S1.
      * replace (S1 ∩ S1) with S1 by set_solver.
        unfold S1. rewrite size_list_to_set by done. lia.
      * unfold S1, S2. apply set_eq. intros x.
        by rewrite !elem_of_list_to_set, Hperm.
Qed.

Lemma compare_signatures_value_sets_witness :
  exists q,
    compare_signatures (Some <$> [4; 4; 7]) (Some <$> [7; 9; 4]) = Returned q /\
    q = (Z.of_nat (size (list_to_set [4; 4; 7] ∩ list_to_set [7; 9; 4] : gset Z))
         # Z.to_pos (len [4; 4; 7])) /\
    (0 <= q <= 1)%Q /\
    ((q == 0)%Q <-> forall x, x ∈ [4; 4; 7] -> x ∉ [7; 9; 4]) /\
    ((q == 1)%Q <-> NoDup [4; 4; 7] /\ [4; 4; 7] ≡ₚ [7; 9; 4]).
Proof.
  apply (compare_signatures_value_sets [4; 4; 7] [7; 9; 4]); [| |done..];
    repeat (apply Forall_cons_2; [unfold is_int64; lia|]); apply Forall_nil_2.
Defined.

(** ** [min_hashing] *)

Lemma for_each_app {X St} (xs ys : list X) (body : X -> St -> outcome St) acc :
  for_each (xs ++ ys) body acc = (acc' ← for_each xs body acc; for_each ys body acc').
Proof.
  revert acc. induction xs as [|x xs IH]; intros acc; simpl; [done|].
  destruct (body x acc); simpl; [apply IH | done].
Qed.

(** The components of the signature of a non-empty set, one by one. *)
Lemma min_hashing_components A B (S : gset Z) (H M : Z) :
  S <> ∅ -> H <= len A -> H <= len B -> M <> 0 ->
  exists zs,
    min_hashing A B S H M = Returned (Some <$> zs) /\
    length zs = Z.to_nat H /\
    forall (i : nat) a b m,
      A !! i = Some a -> B !! i = Some b -> zs !! i = Some m ->
      (exists x, x ∈ S /\ m = (a * x + b) mod M) /\
      (forall x, x ∈ S -> m <= (a * x + b) mod M).
Proof.
  intros HS HA HB HM.
  assert (elements S <> []) as Hel.
  { intros Hnil. by apply elements_empty_inv, leibniz_equiv in Hnil. }
  destruct (inner_loop_total A B M (elements S) H) as [f Hf]; [by right|].
  exists ((fun i => default 0 (f i)) <$> range H).
  assert (forall i, i ∈ range H -> f i = Some (default 0 (f i))) as Hsome.
  { intros i Hi. specialize (Hf i Hi). apply elem_of_seqZ in Hi. unfold len in HA, HB.
    destruct (lookup_lt_is_Some_2 A (Z.to_nat i)) as [a Ha]; [lia|].
    destruct (lookup_lt_is_Some_2 B (Z.to_nat i)) as [b Hb]; [lia|].
    destruct (inner_loop_min A B M (Z.to_nat i) a b (elements S)) as (m & Hm & _);
      [done..|].
    rewrite Z2Nat.id in Hm by lia. rewrite Hm in Hf. by injection Hf as <-. }
  split_and!.
  - unfold min_hashing. rewrite (outer_loop A B M _ f) by done. simpl. f_equal.
    rewrite <- list_fmap_compose. by apply Forall_fmap_ext_1, Forall_forall.
  - unfold range. by rewrite length_fmap, length_seqZ.
  - intros i a b m Ha Hb Hm.
    apply list_lookup_fmap_Some in Hm as (j & -> & Hj). unfold range in Hj.
    apply lookup_seqZ in Hj as [-> Hi]. rewrite Z.add_0_l.
    destruct (inner_loop_min A B M i a b (elements S)) as (m & Hm & Hin & Hall);
      [done..|].
    assert (Z.of_nat i ∈ range H) as Hr by (apply elem_of_seqZ; lia).
    specialize (Hf _ Hr). rewrite Hm in Hf. injection Hf as <-. simpl.
    split.
    + destruct Hin as (x & Hx & ->). exists x. by rewrite <- elem_of_elements.
    + intros x Hx. apply Hall. by rewrite elem_of_elements.
Qed.

Lemma min_hashing_components_int64 A B (S : gset Z) (H M : Z) zs :
  H <= len A -> H <= len B -> M <> 0 ->
  -9223372036854775808 <= M <= 9223372036854775808 ->
  length zs = Z.to_nat H ->
  (forall (i : nat) a b m,
     A !! i = Some a -> B !! i = Some b -> zs !! i = Some m ->
     (exists x, x ∈ S /\ m = (a * x + b) mod M) /\
     (forall x, x ∈ S -> m <= (a * x + b) mod M)) ->
  Forall is_int64 zs.
Proof.
  intros HA HB HM Hbound Hl Hc. apply Forall_lookup. intros i m Hm.
  assert (i < Z.to_nat H)%nat as Hi by (apply lookup_lt_Some in Hm; lia).
  unfold len in HA, HB.
  destruct (lookup_lt_is_Some_2 A i) as [a Ha]; [lia|].
  destruct (lookup_lt_is_Some_2 B i) as [b Hb]; [lia|].
  destruct (Hc i a b m Ha Hb Hm) as [(x & _ & ->) _].
  by apply mod_int64.
Qed.

(** X6. The signature of a union is the componentwise minimum of the two
    signatures: for two non-empty sets, coefficient lists of at least [H]
    values and a modulus other than [0] of absolute value at most [2^63],
    [min_hashing] of [S1 ∪ S2] holds at every position the smaller of the
    values [min_hashing] gives [S1] and [S2] there, all of them 64-bit
    ints. *)
Theorem min_hashing_union (A B : list Z) (S1 S2 : gset Z) (H M : Z) :
  S1 <> ∅ -> S2 <> ∅ -> H <= len A -> H <= len B -> M <> 0 ->
  -9223372036854775808 <= M <= 9223372036854775808 ->
  exists zs1 zs2,
    Forall is_int64 zs1 /\ Forall is_int64 zs2 /\
    min_hashing A B S1 H M = Returned (Some <$> zs1) /\
    min_hashing A B S2 H M = Returned (Some <$> zs2) /\
    min_hashing A B (S1 ∪ S2) H M = Returned (Some <$> zip_with Z.min zs1 zs2).
Proof.
  intros HS1 HS2 HA HB HM Hbound.
  destruct (min_hashing_components A B S1 H M) as (zs1 & Hr1 & Hl1 & Hc1); [done..|].
  destruct (min_hashing_components A B S2 H M) as (zs2 & Hr2 & Hl2 & Hc2); [done..|].
  destruct (min_hashing_components A B (S1 ∪ S2) H M) as (zsu & Hru & Hlu & Hcu);
    [set_solver|done..|].
  exists zs1, zs2.
  split; [by eapply (min_hashing_components_int64 A B S1 H M)|].
  split; [by eapply (min_hashing_components_int64 A B S2 H M)|].
  split_and!; [done..|]. rewrite Hru. do 2 f_equal.
  apply list_eq. intros i. rewrite lookup_zip_with.
  destruct (decide (i < Z.to_nat H)%nat) as [Hi|Hi].
  - destruct (lookup_lt_is_Some_2 zs1 i) as [m1 Hm1]; [lia|].
    destruct (lookup_lt_is_Some_2 zs2 i) as [m2 Hm2]; [lia|].
    destruct (lookup_lt_is_Some_2 zsu i) as [mu Hmu]; [lia|].
    unfold len in HA, HB.
    destruct (lookup_lt_is_Some_2 A i) as [a Ha]; [lia|].
    destruct (lookup_lt_is_Some_2 B i) as [b Hb]; [lia|].
    rewrite Hm1, Hm2, Hmu. simpl. f_equal.
    destruct (Hc1 i a b m1 Ha Hb Hm1) as [(x1 & Hx1 & Hv1) Hmin1].
    destruct (Hc2 i a b m2 Ha Hb Hm2) as [(x2 & Hx2 & Hv2) Hmin2].
    destruct (Hcu i a b mu Ha Hb Hmu) as [(xu & Hxu & Hvu) Hminu].
    assert (mu <= m1) by (rewrite Hv1; apply Hminu; set_solver).
    assert (mu <= m2) by (rewrite Hv2; apply Hminu; set_solver).
    apply elem_of_union in Hxu as [Hxu|Hxu].
    + specialize (Hmin1 xu Hxu). lia.
    + specialize (Hmin2 xu Hxu). lia.
  - rewrite (lookup_ge_None_2 zsu), (lookup_ge_None_2 zs1) by lia. done.
Qed.

Lemma min_hashing_union_witness :
  exists zs1 zs2,
    Forall is_int64 zs1 /\ Forall is_int64 zs2 /\
    min_hashing [1; 2] [2; 1] {[1]} 2 4294967295 = Returned (Some <$> zs1) /\
    min_hashing [1; 2] [2; 1] {[5]} 2 4294967295 = Returned (Some <$> zs2) /\
    min_hashing [1; 2] [2; 1] ({[1]} ∪ {[5]}) 2 4294967295
    = Returned (Some <$> zip_with Z.min zs1 zs2).
Proof.
  apply (min_hashing_union [1; 2] [2; 1] {[1]} {[5]} 2 4294967295).
  - intros Hempty. assert (1 ∈ (∅ : gset Z)) as Hin by (rewrite <- Hempty; set_solver).
    set_solver.
  - intros Hempty. assert (5 ∈ (∅ : gset Z)) as Hin by (rewrite <- Hempty; set_solver).
    set_solver.
  - unfold len. simpl. lia.
  - unfold len. simpl. lia.
  - lia.
  - lia.
Defined.

(** X7. With a positive modulus of at most [2^63] every component of the
    signature of a non-empty set is an int in [0, M): for [M = 2^32 - 1] the
    values fit 32 bits, whatever the size of the coefficients. *)
Theorem min_hashing_range (A B : list Z) (S : gset Z) (H M : Z) :
  S <> ∅ -> H <= len A -> H <= len B -> 0 < M <= 9223372036854775808 ->
  exists zs,
    min_hashing A B S H M = Returned (Some <$> zs) /\
    length zs = Z.to_nat H /\
    Forall (fun m => 0 <= m < M) zs.
Proof.
  intros HS HA HB HM.
  destruct (min_hashing_components A B S H M) as (zs & Hr & Hl & Hc); [done..|lia|].
  exists zs. split_and!; [done..|]. apply Forall_lookup. intros i m Hm.
  assert (i < Z.to_nat H)%nat as Hi by (apply lookup_lt_Some in Hm; lia).
  unfold len in HA, HB.
  destruct (lookup_lt_is_Some_2 A i) as [a Ha]; [lia|].
  destruct (lookup_lt_is_Some_2 B i) as [b Hb]; [lia|].
  destruct (Hc i a b m Ha Hb Hm) as [(x & _ & ->) _].
  apply Z.mod_pos_bound. lia.
Qed.

Lemma min_hashing_range_witness :
  exists zs,
    min_hashing [4294967295; 2] [4294967295; 1] {[1; 5]} 2 4294967295
    = Returned (Some <$> zs) /\
    length zs = Z.to_nat 2 /\
    Forall (fun m => 0 <= m < 4294967295) zs.
Proof.
  apply (min_hashing_range [4294967295; 2] [4294967295; 1] {[1; 5]} 2 4294967295).
  - intros Hempty. assert (1 ∈ (∅ : gset Z)) as Hin by (rewrite <- Hempty; set_solver).
    set_solver.
  - unfold len. simpl. lia.
  - unfold len. simpl. lia.
  - lia.
Defined.

Lemma index_out_of_range {X} (l : list X) (i : Z) :
  len l <= i -> index l i = Raised IndexError.
Proof.
  intros Hi. unfold index, len in *.
  destruct (Z.ltb_spec i 0); [lia|]. destruct (Z.ltb_spec i 0); [lia|].
  by rewrite lookup_ge_None_2 by lia.
Qed.

Lemma index_in_range {X} (l : list X) (i : Z) :
  0 <= i < len l -> exists x, index l i = Returned x.
Proof.
  intros Hi. unfold len in Hi.
  destruct (lookup_lt_is_Some_2 l (Z.to_nat i)) as [x Hx]; [lia|].
  exists x. rewrite <- (Z2Nat.id i) by lia. by apply index_lookup.
Qed.

(** X8. When the set is not empty, the modulus is not [0] and one of the
    module-level coefficient lists holds fewer than [H] values,
    [min_hashing] raises [IndexError]: no shorter signature is returned. *)
Theorem min_hashing_short_coefficients (A B : list Z) (S : gset Z) (H M : Z) :
  S <> ∅ -> M <> 0 -> len A < H \/ len B < H ->
  min_hashing A B S H M = Raised IndexError.
Proof.
  intros HS HM Hshort.
  destruct (elements S) as [|x xs] eqn:Hel.
  { by apply elements_empty_inv, leibniz_equiv in Hel. }
  set (j := Z.min (len A) (len B)).
  assert (0 <= j < H) as Hj by (unfold j, len in *; lia).
  unfold min_hashing, range. rewrite Hel.
  replace H with (j + (H - j)) by lia. rewrite seqZ_app by lia.
  rewrite for_each_app.
  destruct (inner_loop_total A B M (x :: xs) j) as [f Hf]; [right; unfold j; lia|].
  fold (range j). rewrite (outer_loop A B M _ f) by done. simpl.
  rewrite Z.add_0_l, (seqZ_cons j) by lia. cbn [for_each].
  assert (for_each (x :: xs) (min_hashing_step A B j M) None = Raised IndexError)
    as Hinner.
  { cbn [for_each]. unfold min_hashing_step.
    destruct (Z.le_gt_cases (len A) j) as [HAj|HAj].
    - by rewrite (index_out_of_range A j HAj).
    - destruct (index_in_range A j) as [a ->]; [lia|]. simpl.
      rewrite (index_out_of_range B j) by (unfold j in *; lia). done. }
  assert (forall acc, min_hashing_row A B (x :: xs) M j acc = Raised IndexError) as ->
    by (intros acc; unfold min_hashing_row; by rewrite Hinner).
  done.
Qed.

Lemma min_hashing_short_coefficients_witness :
  min_hashing [1; 2] [2] {[1; 5]} 2 4294967295 = Raised IndexError.
Proof.
  apply (min_hashing_short_coefficients [1; 2] [2] {[1; 5]} 2 4294967295).
  - intros Hempty. assert (1 ∈ (∅ : gset Z)) as Hin by (rewrite <- Hempty; set_solver).
    set_solver.
  - lia.
  - right. unfold len. simpl. lia.
Defined.

(** X9. With the modulus [0], a non-empty set, [H >= 1] and non-empty
    coefficient lists, [min_hashing] raises [ZeroDivisionError]. *)
Theorem min_hashing_zero_modulus (A B : list Z) (S : gset Z) (H : Z) :
  S <> ∅ -> 1 <= H -> A <> [] -> B <> [] ->
  min_hashing A B S H 0 = Raised ZeroDivisionError.
Proof.
  intros HS HH HA HB.
  destruct (elements S) as [|x xs] eqn:Hel.
  { by apply elements_empty_inv, leibniz_equiv in Hel. }
  destruct A as [|a A]; [done|]. destruct B as [|b B]; [done|].
  unfold min_hashing, range. rewrite Hel, seqZ_cons by lia. reflexivity.
Qed.

Lemma min_hashing_zero_modulus_witness :
  min_hashing [1; 2] [2; 1] {[1; 5]} 2 0 = Raised ZeroDivisionError.
Proof.
  apply (min_hashing_zero_modulus [1; 2] [2; 1] {[1; 5]} 2); [|lia|done|done].
  intros Hempty. assert (1 ∈ (∅ : gset Z)) as Hin by (rewrite <- Hempty; set_solver).
  set_solver.
Defined.

(** ** [generate_random_coefficient] *)

Lemma generate_loop_distinct M n tmp lst first rest :
  0 <= M -> NoDup first -> length first = n ->
  (forall x, x ∈ first -> x ∉ tmp) ->
  generate_loop M n tmp lst (first ++ rest) = Done (lst ++ first) rest.
Proof.
  intros HM Hnd. revert n tmp lst.
  induction Hnd as [|d first Hd _ IH]; intros n tmp lst Hlen Hfresh.
  - subst n. simpl. by rewrite app_nil_r.
  - destruct n as [|n]; [done|]. injection Hlen as Hlen.
    rewrite generate_loop_S. destruct (Z.ltb_spec M 0); [lia|].
    rewrite <- app_comm_cons. rewrite decide_True by (apply Hfresh; by left).
    rewrite IH; [by rewrite <- app_assoc|done|].
    intros x Hx. apply not_elem_of_union. split; [|apply Hfresh; by right].
    apply not_elem_of_singleton. by intros ->.
Qed.

(** X10. When the first [H] draws are pairwise distinct, the generator
    returns exactly these draws, in draw order, and reads no further draw. *)
Theorem generate_random_coefficient_distinct (M H : Z) (first rest : list Z) :
  0 <= M -> NoDup first -> len first = H ->
  generate_random_coefficient M H (first ++ rest) = Done first rest.
Proof.
  intros HM Hnd Hlen. unfold generate_random_coefficient.
  rewrite (generate_loop_distinct M (Z.to_nat H) ∅ [] first rest); [done..| |set_solver].
  unfold len in Hlen. lia.
Qed.

Lemma generate_random_coefficient_distinct_witness :
  generate_random_coefficient 4294967295 3 ([5; 9; 7] ++ [9; 1]) = Done [5; 9; 7] [9; 1].
Proof.
  apply (generate_random_coefficient_distinct 4294967295 3 [5; 9; 7] [9; 1]).
  - lia.
  - repeat constructor; set_solver.
  - reflexivity.
Defined.

Lemma resample_done_spec M tmp d tape r rest :
  resample M tmp d tape = Done r rest ->
  exists pre, tape = pre ++ rest /\ r ∈ d :: pre /\ r ∉ tmp.
Proof.
  revert d. induction tape as [|x t IH]; intros d; simpl.
  - case_decide as Hd; [by destruct (M <? 0)|].
    intros [= <- <-]. exists []. split_and!; [done|by left|done].
  - case_decide as Hd.
    + destruct (M <? 0); [done|]. intros Hr.
      destruct (IH _ Hr) as (pre & -> & Hin & Hnot).
      exists (x :: pre). split_and!; [done|by right|done].
    + intros [= <- <-]. exists []. split_and!; [done|by left|done].
Qed.

Lemma generate_loop_shape M n tmp lst tape l rest :
  generate_loop M n tmp lst tape = Done l rest ->
  exists used new,
    tape = used ++ rest /\ l = lst ++ new /\ length new = n /\
    (forall x, x ∈ new -> x ∈ used) /\ (n <= length used)%nat.
Proof.
  revert tmp lst tape. induction n as [|n IH]; intros tmp lst tape.
  - simpl. intros [= <- <-]. exists [], []. by rewrite app_nil_r.
  - rewrite generate_loop_S. destruct (M <? 0); [done|].
    destruct tape as [|d t]; [done|]. case_decide as Hd.
    + intros Hrun. destruct (IH _ _ _ Hrun) as (used & new & -> & -> & Hlen & Hsub & Hn).
      exists (d :: used), (d :: new). split_and!; [done|by rewrite <- app_assoc|simpl; lia| |simpl; lia].
      intros x Hx. apply elem_of_cons in Hx as [->|Hx]; [by left|right; by apply Hsub].
    + destruct (resample M tmp d t) as [r rest'| |] eqn:Hres; [|done..].
      intros Hrun. destruct (resample_done_spec _ _ _ _ _ _ Hres) as (pre & -> & Hr & _).
      destruct (IH _ _ _ Hrun) as (used & new & -> & -> & Hlen & Hsub & Hn).
      exists (d :: pre ++ used), (r :: new).
      split_and!; [simpl; by rewrite app_assoc|by rewrite <- app_assoc|simpl; lia| |].
      * intros x Hx. apply elem_of_cons in Hx as [->|Hx].
        -- rewrite app_comm_cons. apply elem_of_app. by left.
        -- right. apply elem_of_app. right. by apply Hsub.
      * simpl. rewrite length_app. lia.
Qed.

(** X11. Whenever the generator returns, the list holds exactly [H] values
    (none when [H <= 0]), every one of them a draw it consumed, and at least
    [H] draws were consumed; so draws inside [0, M] give coefficients inside
    [0, M]. *)
Theorem generate_random_coefficient_shape (M H : Z) (tape l rest : list Z) :
  generate_random_coefficient M H tape = Done l rest ->
  length l = Z.to_nat H /\
  exists used,
    tape = used ++ rest /\
    (forall x, x ∈ l -> x ∈ used) /\
    (length l <= length used)%nat /\
    (Forall (in_range M) used -> Forall (in_range M) l).
Proof.
  intros Hrun. unfold generate_random_coefficient in Hrun.
  destruct (generate_loop_shape _ _ _ _ _ _ _ Hrun) as (used & new & -> & -> & Hlen & Hsub & Hn).
  simpl. split; [done|]. exists used. split_and!; [done|done|lia|].
  rewrite !Forall_forall. intros Hused x Hx. by apply Hused, Hsub.
Qed.

Lemma generate_random_coefficient_shape_witness :
  length [5; 7; 7] = Z.to_nat 3 /\
  exists used,
    [5; 5; 7; 7; 8] = used ++ [8] /\
    (forall x, x ∈ [5; 7; 7] -> x ∈ used) /\
    (length [5; 7; 7] <= length used)%nat /\
    (Forall (in_range 4294967295) used -> Forall (in_range 4294967295) [5; 7; 7]).
Proof.
  apply (generate_random_coefficient_shape 4294967295 3 [5; 5; 7; 7; 8] [5; 7; 7] [8]).
  vm_compute. reflexivity.
Defined.

(** X12. With a negative [max_hash_value] and at least one coefficient asked
    for, the generator raises [ValueError] at its first draw, whatever the
    random source would give. *)
Theorem generate_random_coefficient_negative_max (M H : Z) (tape : list Z) :
  M < 0 -> 1 <= H -> generate_random_coefficient M H tape = Fault ValueError.
Proof.
  intros HM HH. unfold generate_random_coefficient.
  destruct (Z.to_nat H) as [|n] eqn:Hn; [lia|].
  rewrite generate_loop_S. by destruct (Z.ltb_spec M 0); [|lia].
Qed.

Lemma generate_random_coefficient_negative_max_witness :
  generate_random_coefficient (-1) 2 [0; 0; 3] = Fault ValueError.
Proof. apply (generate_random_coefficient_negative_max (-1) 2 [0; 0; 3]); lia. Defined.

(** ** [shingling] *)

Lemma lor_lt_pow2 a b n :
  0 <= a < 2 ^ n -> 0 <= b < 2 ^ n -> 0 <= Z.lor a b < 2 ^ n.
Proof.
  intros Ha Hb. assert (0 <= Z.lor a b) as Hnn by (apply Z.lor_nonneg; lia).
  split; [done|]. destruct (decide (Z.lor a b = 0)) as [->|Hnz]; [lia|].
  apply Z.log2_lt_pow2; [lia|]. rewrite Z.log2_lor by lia.
  destruct (decide (a = 0)) as [->|]; destruct (decide (b = 0)) as [->|];
    rewrite ?Z.lor_0_l, ?Z.lor_0_r in Hnz; try done;
    apply Z.max_lub_lt; try (apply Z.log2_lt_pow2; lia);
    change (Z.log2 0) with 0;
    (destruct (Z.le_gt_cases n 0) as [Hn|]; [|lia]);
    (assert (2 ^ n <= 1) by (destruct (decide (n = 0)) as [->|]; [done|];
       rewrite Z.pow_neg_r by lia; lia)); lia.
Qed.

Lemma lxor_lt_pow2 a b n :
  0 <= a < 2 ^ n -> 0 <= b < 2 ^ n -> 0 <= Z.lxor a b < 2 ^ n.
Proof.
  intros Ha Hb. assert (0 <= Z.lxor a b) as Hnn by (apply Z.lxor_nonneg; lia).
  split; [done|]. destruct (decide (Z.lxor a b = 0)) as [->|Hnz]; [lia|].
  apply Z.log2_lt_pow2; [lia|].
  eapply Z.le_lt_trans; [apply Z.log2_lxor; lia|].
  pose proof (lor_lt_pow2 a b n Ha Hb) as [_ Hlor].
  destruct (decide (Z.lor a b = 0)) as [Hz|Hlnz].
  - apply Z.lor_eq_0_iff in Hz as [-> ->]. done.
  - rewrite <- Z.log2_lor by lia. apply Z.log2_lt_pow2; [|done].
    assert (0 <= Z.lor a b) by (apply Z.lor_nonneg; lia). lia.
Qed.

Lemma shiftr_lt a n m :
  0 <= n -> 0 <= a < 2 ^ (n + m) -> 0 <= m -> 0 <= Z.shiftr a n < 2 ^ m.
Proof.
  intros Hn Ha Hm. rewrite Z.shiftr_div_pow2 by done.
  rewrite Z.pow_add_r in Ha by done.
  assert (0 < 2 ^ n) by (apply Z.pow_pos_nonneg; lia).
  split; [apply Z.div_pos; lia|]. apply Z.div_lt_upper_bound; lia.
Qed.

Lemma continuation_byte c shift : 0 <= shift -> is_byte (continuation c shift).
Proof.
  intros Hs. unfold continuation, is_byte.
  change 63 with (Z.ones 6). rewrite Z.land_ones by lia.
  pose proof (Z.mod_pos_bound (Z.shiftr c shift) (2 ^ 6) eq_refl) as Hmod.
  change 256 with (2 ^ 8). apply lor_lt_pow2; [done|].
  change (2 ^ 6) with 64 in *. change (2 ^ 8) with 256. lia.
Qed.

Lemma encode_char_bytes c bs : encode_char c = Returned bs -> Forall is_byte bs.
Proof.
  unfold encode_char, is_scalar.
  destruct (Z.leb_spec 0 c); simpl; [|discriminate].
  destruct (Z.ltb_spec c 1114112); simpl; [|discriminate].
  destruct (negb _); simpl; [discriminate|].
  destruct (Z.ltb_spec c 128).
  { intros [= <-]. apply Forall_cons_2; [unfold is_byte; lia | apply Forall_nil_2]. }
  assert (forall lead n m, 0 <= lead < 256 -> 0 <= n -> 0 <= m <= 8 ->
            c < 2 ^ (n + m) -> 2 ^ m <= 256 -> is_byte (Z.lor lead (Z.shiftr c n)))
    as Hlead.
  { intros lead n m Hl Hn Hm Hc Hpow. unfold is_byte. change 256 with (2 ^ 8).
    apply lor_lt_pow2; [done|].
    pose proof (shiftr_lt c n m Hn (conj H Hc) (proj1 Hm)). change (2 ^ 8) with 256. lia. }
  assert (forall shifts, Forall (fun sh => 0 <= sh) shifts ->
            Forall is_byte (continuation c <$> shifts)) as Htail.
  { intros shifts Hsh. apply Forall_fmap. eapply Forall_impl; [exact Hsh|].
    intros sh Hnn. by apply continuation_byte. }
  destruct (Z.ltb_spec c 2048).
  { intros [= <-]. apply Forall_cons_2.
    - apply (Hlead 192 6 5); try done; lia.
    - apply (Htail [0]). by repeat constructor. }
  destruct (Z.ltb_spec c 65536).
  { intros [= <-]. apply Forall_cons_2.
    - apply (Hlead 224 12 4); try done; lia.
    - apply (Htail [6; 0]). by repeat constructor. }
  intros [= <-]. apply Forall_cons_2.
  - apply (Hlead 240 18 3); try done; lia.
  - apply (Htail [12; 6; 0]). by repeat constructor.
Qed.

Lemma encode_bytes s bs : encode s = Returned bs -> Forall is_byte bs.
Proof.
  revert bs. induction s as [|c s IH]; intros bs; simpl.
  - by intros [= <-].
  - destruct (encode_char c) as [b|] eqn:Hc; [|done]. simpl.
    destruct (encode s) as [r|]; [|done]. simpl. intros [= <-].
    apply Forall_app. split; [by eapply encode_char_bytes | by apply IH].
Qed.

Lemma crc_bit_u32 crc : is_u32 crc -> is_u32 (crc_bit crc).
Proof.
  unfold is_u32, crc_bit. change 4294967296 with (2 ^ 32). intros Hc.
  pose proof (shiftr_lt crc 1 31 ltac:(lia) Hc ltac:(lia)) as Hs.
  assert (0 <= Z.shiftr crc 1 < 2 ^ 32) by (change (2 ^ 31) with 2147483648 in Hs;
    change (2 ^ 32) with 4294967296; lia).
  destruct (Z.testbit crc 0); [|done]. apply lxor_lt_pow2; [done|].
  change (2 ^ 32) with 4294967296. lia.
Qed.

Lemma crc_byte_u32 crc b : is_u32 crc -> is_byte b -> is_u32 (crc_byte crc b).
Proof.
  intros Hc Hb. unfold crc_byte.
  assert (is_u32 (Z.lxor crc b)) as Hx.
  { unfold is_u32, is_byte in *. change 4294967296 with (2 ^ 32) in *.
    apply lxor_lt_pow2; [done|]. change (2 ^ 32) with 4294967296. lia. }
  simpl. by do 8 apply crc_bit_u32.
Qed.

(** The CRC-32 of a byte string is an unsigned 32-bit value. *)
Lemma crc32_u32 data : Forall is_byte data -> is_u32 (crc32 data).
Proof.
  intros Hdata. unfold crc32.
  assert (forall crc, is_u32 crc -> is_u32 (fold_left crc_byte data crc)) as Hfold.
  { induction Hdata as [|b data Hb _ IH]; intros crc Hc; simpl; [done|].
    by apply IH, crc_byte_u32. }
  specialize (Hfold 4294967295 ltac:(unfold is_u32; lia)).
  unfold is_u32 in *. change 4294967296 with (2 ^ 32) in *.
  apply lxor_lt_pow2; [done|]. change (2 ^ 32) with 4294967296. lia.
Qed.

Lemma utf8_bytes w : Forall is_byte (utf8 w).
Proof.
  unfold utf8. destruct (encode w) as [bs|] eqn:Hw; [by eapply encode_bytes | constructor].
Qed.

Lemma shingle_of_crc32 w : shingle_of w = crc32 (utf8 w) /\ is_u32 (shingle_of w).
Proof.
  pose proof (crc32_u32 (utf8 w) (utf8_bytes w)) as Hu.
  assert (shingle_of w = crc32 (utf8 w)) as Heq.
  { unfold shingle_of. change 4294967295 with (Z.ones 32).
    rewrite Z.land_ones by lia. apply Z.mod_small. exact Hu. }
  split; [done|]. by rewrite Heq.
Qed.

(** X13. Every shingle [shingling] returns for an encodable string is the
    CRC-32 of the UTF-8 bytes of one window [s[i:i+k]], and is an unsigned
    32-bit value: the mask [& 0xffffffff] changes nothing. *)
Theorem shingling_values (s : list Z) (k : Z) :
  encodable s ->
  exists S : gset Z,
    shingling s k = Returned S /\
    forall x, x ∈ S <->
      exists i, 0 <= i < len s - k + 1 /\
                x = crc32 (utf8 (slice s i (i + k))) /\ is_u32 x.
Proof.
  intros Hs. eexists. split; [by apply shingling_encodable|].
  intros x. rewrite elem_of_list_to_set, list_elem_of_fmap. unfold windows. split.
  - intros (w & -> & Hw). apply list_elem_of_fmap in Hw as (i & -> & Hi).
    apply elem_of_seqZ in Hi. exists i.
    destruct (shingle_of_crc32 (slice s i (i + k))) as [Heq Hu].
    split_and!; [lia|lia|done|done].
  - intros (i & Hi & -> & _). exists (slice s i (i + k)). split.
    + by destruct (shingle_of_crc32 (slice s i (i + k))).
    + apply list_elem_of_fmap. exists i. split; [done|]. apply elem_of_seqZ. lia.
Qed.

Lemma shingling_values_witness :
  exists S : gset Z,
    shingling (str "abcab") 2 = Returned S /\
    forall x, x ∈ S <->
      exists i, 0 <= i < len (str "abcab") - 2 + 1 /\
                x = crc32 (utf8 (slice (str "abcab") i (i + 2))) /\ is_u32 x.
Proof. apply (shingling_values (str "abcab") 2). repeat constructor. Defined.

Lemma slice_window {X} (s : list X) (i k : Z) :
  0 <= i -> 0 <= k -> i + k <= len s ->
  slice s i (i + k) = take (Z.to_nat k) (drop (Z.to_nat i) s).
Proof.
  intros Hi Hk Hlen. unfold slice, slice_bound.
  destruct (Z.ltb_spec i 0); [lia|]. destruct (Z.ltb_spec (i + k) 0); [lia|].
  rewrite !Z.min_l by lia. do 2 f_equal. lia.
Qed.

Lemma encode_char_raises c e : encode_char c = Raised e -> e = UnicodeEncodeError.
Proof.
  unfold encode_char. destruct (negb (is_scalar c)); [by intros [= <-]|].
  repeat case_match; discriminate.
Qed.

Lemma encode_raises w e : encode w = Raised e -> e = UnicodeEncodeError.
Proof.
  induction w as [|c w IH]; simpl; [done|].
  destruct (encode_char c) as [b|e'] eqn:Hc; simpl.
  - destruct (encode w) as [r|e'']; simpl; [done|]. intros [= <-]. by apply IH.
  - intros [= <-]. by eapply encode_char_raises.
Qed.

Lemma encode_surrogate w c :
  c ∈ w -> is_scalar c = false -> encode w = Raised UnicodeEncodeError.
Proof.
  intros Hin Hc. induction Hin as [c w|c c' w _ IH]; simpl.
  - unfold encode_char at 1. by rewrite Hc.
  - destruct (encode_char c') as [b|e] eqn:Hc'; simpl.
    + by rewrite IH.
    + f_equal. by eapply encode_char_raises.
Qed.

Lemma for_each_raises_at {X St} (body : X -> St -> outcome St) xs x E :
  x ∈ xs -> (forall acc, body x acc = Raised E) ->
  (forall y acc e, body y acc = Raised e -> e = E) ->
  forall acc, for_each xs body acc = Raised E.
Proof.
  intros Hin Hx Hall. induction Hin as [x xs|x y xs _ IH]; intros acc; simpl.
  - by rewrite Hx.
  - destruct (body y acc) as [a|e] eqn:Hy; simpl; [by apply IH|].
    f_equal. by eapply Hall.
Qed.

(** X14. A lone surrogate makes [shingling] fail: for [1 <= k <= len(s)],
    when some code point of [s] is not encodable the call raises
    [UnicodeEncodeError] and returns no set. *)
Theorem shingling_surrogate (s : list Z) (k : Z) :
  1 <= k <= len s -> ~ encodable s ->
  shingling s k = Raised UnicodeEncodeError.
Proof.
  intros Hk Hs. unfold encodable in Hs.
  apply not_Forall_Exists in Hs; [|intros c; apply _].
  apply Exists_exists in Hs as (c & Hin & Hc). simpl in Hc.
  apply not_true_is_false in Hc.
  apply list_elem_of_lookup in Hin as [p Hp].
  pose proof (lookup_lt_Some _ _ _ Hp) as Hplen. unfold len in Hk.
  set (i := Z.min (Z.of_nat p) (len s - k)). unfold len in i.
  assert (0 <= i /\ i <= Z.of_nat p < i + k /\ i + k <= len s) as (Hi0 & Hip & Hik)
    by (unfold i, len; lia).
  assert (forall acc, shingling_step s k i acc = Raised UnicodeEncodeError) as Hstep.
  { intros acc. unfold shingling_step.
    rewrite (encode_surrogate (slice s i (i + k)) c); [done| |done].
    rewrite slice_window by lia. apply list_elem_of_lookup.
    exists (p - Z.to_nat i)%nat.
    rewrite lookup_take, decide_True by lia. rewrite lookup_drop.
    by replace (Z.to_nat i + (p - Z.to_nat i))%nat with p by lia. }
  unfold shingling. apply (for_each_raises_at _ _ i); [|done|].
  - apply elem_of_seqZ. unfold len in *. lia.
  - intros j acc e. unfold shingling_step.
    destruct (encode (slice s j (j + k))) as [data|e'] eqn:Hj; simpl.
    + by case_decide.
    + intros [= <-]. by eapply encode_raises.
Qed.

Lemma shingling_surrogate_witness :
  shingling [97; 55296; 98] 2 = Raised UnicodeEncodeError.
Proof.
  apply (shingling_surrogate [97; 55296; 98] 2).
  - unfold len. simpl. lia.
  - intros Henc. apply Forall_cons in Henc as [_ Henc].
    apply Forall_cons in Henc as [Hbad _]. discriminate Hbad.
Defined.

Lemma window_of_substring {X} (pre s post : list X) (i k : Z) :
  1 <= k -> 0 <= i -> i + k <= len s ->
  slice (pre ++ s ++ post) (len pre + i) (len pre + i + k) = slice s i (i + k).
Proof.
  intros Hk Hi Hlen. unfold len in *.
  rewrite (slice_window s) by (unfold len; lia).
  rewrite (slice_window (pre ++ s ++ post)).
  - replace (Z.to_nat (Z.of_nat (length pre) + i)) with (length pre + Z.to_nat i)%nat by lia.
    rewrite drop_app_add, drop_app_le by lia.
    rewrite take_app_le; [done|]. rewrite length_drop. lia.
  - lia.
  - lia.
  - unfold len. rewrite !length_app. lia.
Qed.

(** X15. A text that contains another has all its shingles: for [k >= 1]
    and an encodable text [pre ++ s ++ post], the shingle set of [s] is a
    subset of the shingle set of [pre ++ s ++ post]. *)
Theorem shingling_substring (pre s post : list Z) (k : Z) :
  1 <= k -> encodable (pre ++ s ++ post) ->
  exists S S' : gset Z,
    shingling s k = Returned S /\
    shingling (pre ++ s ++ post) k = Returned S' /\
    S ⊆ S'.
Proof.
  intros Hk Hall.
  assert (encodable s) as Hs.
  { unfold encodable in *. apply Forall_app in Hall as [_ Hall].
    by apply Forall_app in Hall as [Hs _]. }
  exists (list_to_set (shingle_of <$> windows s k)),
         (list_to_set (shingle_of <$> windows (pre ++ s ++ post) k)).
  split_and!; [by apply shingling_encodable..|].
  intros x. rewrite !elem_of_list_to_set, !list_elem_of_fmap.
  intros (w & -> & Hw). exists w. split; [done|].
  unfold windows in *. apply list_elem_of_fmap in Hw as (i & -> & Hi).
  apply elem_of_seqZ in Hi. apply list_elem_of_fmap. exists (len pre + i). split.
  - rewrite <- (window_of_substring pre s post i k) by lia. f_equal; lia.
  - apply elem_of_seqZ. unfold len in *. rewrite !length_app. lia.
Qed.

Lemma shingling_substring_witness :
  exists S S' : gset Z,
    shingling (str "bca") 2 = Returned S /\
    shingling (str "a" ++ str "bca" ++ str "b") 2 = Returned S' /\
    S ⊆ S'.
Proof.
  apply (shingling_substring (str "a") (str "bca") (str "b") 2); [lia|].
  repeat constructor.
Defined.

(** ** The comparison run of the main block *)

(** A loop keeps what every iteration keeps, and fails only the way an
    iteration can fail. *)
Lemma for_main_ind {X St} (P : St -> Prop) (E : main_exn -> Prop)
    (xs : list X) (body : X -> St -> main_outcome St) acc :
  P acc ->
  (forall x a, x ∈ xs -> P a ->
     match body x a with Completed a' => P a' | Crashed e => E e end) ->
  match for_main xs body acc with Completed r => P r | Crashed e => E e end.
Proof.
  revert acc. induction xs as [|x xs IH]; intros acc Hacc Hbody; simpl; [done|].
  pose proof (Hbody x acc ltac:(left) Hacc) as Hx.
  destruct (body x acc) as [a|e]; simpl; [|done].
  apply IH; [done|]. intros y a' Hy. apply Hbody. by right.
Qed.

Lemma for_each_raises_only {X St} (body : X -> St -> outcome St) xs E acc e :
  (forall y a e', body y a = Raised e' -> e' = E) ->
  for_each xs body acc = Raised e -> e = E.
Proof.
  intros Hall. revert acc. induction xs as [|x xs IH]; intros acc; simpl; [done|].
  destruct (body x acc) as [a|e'] eqn:Hx; simpl; [apply IH|].
  intros [= <-]. by eapply Hall.
Qed.

Lemma shingling_raises s k e : shingling s k = Raised e -> e = UnicodeEncodeError.
Proof.
  unfold shingling. apply for_each_raises_only. intros j acc e'.
  unfold shingling_step. destruct (encode (slice s j (j + k))) as [data|e''] eqn:Hj; simpl.
  - by case_decide.
  - intros [= <-]. by eapply encode_raises.
Qed.

(** With coefficient lists of at least [H] values and a modulus other than
    [0], [min_hashing] returns [H] components for every set. *)
Lemma min_hashing_returns A B (S : gset Z) (H M : Z) :
  0 <= H -> H <= len A -> H <= len B -> M <> 0 ->
  exists sig, min_hashing A B S H M = Returned sig /\ len sig = H.
Proof.
  intros HH HA HB HM.
  destruct (inner_loop_total A B M (elements S) H) as [f Hf]; [by right|].
  exists (f <$> range H). split.
  - unfold min_hashing. by rewrite (outer_loop A B M _ f).
  - unfold len, range. rewrite length_fmap, length_seqZ. lia.
Qed.

Lemma intersect1d_raises ar1 ar2 e : intersect1d ar1 ar2 = Raised e -> e = TypeError.
Proof.
  unfold intersect1d.
  destruct (np_unique ar1) as [u1|e1] eqn:H1; simpl;
    [|intros [= <-]; by eapply np_unique_raises].
  destruct (np_unique ar2) as [u2|e2] eqn:H2; simpl;
    [|intros [= <-]; by eapply np_unique_raises].
  destruct (np_sort (u1 ++ u2)) as [aux|e3] eqn:H3; simpl; [done|].
  intros [= <-]. by eapply np_sort_raises.
Qed.

(** Two signatures of one length other than [0] get a score, or the
    [TypeError] of ordering [None]. *)
Lemma compare_signatures_same_length sig1 sig2 :
  len sig1 = len sig2 -> len sig1 <> 0 ->
  (exists q, compare_signatures sig1 sig2 = Returned q) \/
  compare_signatures sig1 sig2 = Raised TypeError.
Proof.
  intros Hlen Hnz. unfold compare_signatures. rewrite decide_True by done.
  destruct (intersect1d sig1 sig2) as [common|e] eqn:Hi; simpl.
  - left. unfold true_div. destruct (Z.eqb_spec (len sig1) 0); [done|]. eauto.
  - right. f_equal. by eapply intersect1d_raises.
Qed.

(** C3 (amended). For every document shorter than [k] the shingle set is
    empty; for the empty set [min_hashing] raises nothing and returns [H]
    components that are all [None]; and comparing that signature with any
    signature, in either position, returns no score. Nothing tests for
    [None]: the comparison ends in the [AssertionError] of the length check
    when the lengths differ, in [ZeroDivisionError] when both signatures are
    empty, and otherwise in the [TypeError] the array sort raises on
    [None]. *)
Theorem empty_shingle_set_signature (s : list Z) (k : Z) (A B : list Z) (H M : Z)
    (sig2 : list (option Z)) :
  len s < k ->
  shingling s k = Returned ∅ /\
  min_hashing A B ∅ H M = Returned (replicate (Z.to_nat H) None) /\
  compare_signatures (replicate (Z.to_nat H) None) sig2
  = Raised (if decide (length sig2 = Z.to_nat H)
            then if decide (Z.to_nat H = 0%nat) then ZeroDivisionError else TypeError
            else AssertionError "The vector sizes are not the same") /\
  compare_signatures sig2 (replicate (Z.to_nat H) None)
  = Raised (if decide (length sig2 = Z.to_nat H)
            then if decide (Z.to_nat H = 0%nat) then ZeroDivisionError else TypeError
            else AssertionError "The vector sizes are not the same").
Proof.
  intros Hshort. split_and!; [by apply shingling_short | apply min_hashing_empty | |].
  - destruct (decide (length sig2 = Z.to_nat H)) as [Hlen|Hlen].
    + destruct (decide (Z.to_nat H = 0%nat)) as [Hz|Hz].
      * rewrite Hz in *. by destruct sig2.
      * assert (len (replicate (Z.to_nat H) (None : option Z)) = len sig2) as Heq
          by (unfold len; rewrite length_replicate; lia).
        destruct (compare_signatures_same_length _ sig2 Heq) as [[q Hq]|Hty]; [| |done].
        { unfold len. rewrite length_replicate. lia. }
        destruct (compare_signatures_None (replicate (Z.to_nat H) None) sig2) as [e He];
          [|congruence].
        left. by apply elem_of_replicate.
    + unfold compare_signatures, len. rewrite length_replicate.
      by rewrite decide_False by lia.
  - destruct (decide (length sig2 = Z.to_nat H)) as [Hlen|Hlen].
    + destruct (decide (Z.to_nat H = 0%nat)) as [Hz|Hz].
      * rewrite Hz in *. by destruct sig2.
      * assert (len sig2 = len (replicate (Z.to_nat H) (None : option Z))) as Heq
          by (unfold len; rewrite length_replicate; lia).
        destruct (compare_signatures_same_length sig2 _ Heq) as [[q Hq]|Hty]; [| |done].
        { unfold len. lia. }
        destruct (compare_signatures_None sig2 (replicate (Z.to_nat H) None)) as [e He];
          [|congruence].
        right. by apply elem_of_replicate.
    + unfold compare_signatures, len. rewrite length_replicate.
      by rewrite decide_False by lia.
Qed.

Lemma empty_shingle_set_signature_witness :
  shingling (str "ab") 3 = Returned ∅ /\
  min_hashing [1; 2] [2; 1] ∅ 2 4294967295 = Returned (replicate (Z.to_nat 2) None) /\
  compare_signatures (replicate (Z.to_nat 2) None) [Some 7; Some 9]
  = Raised (if decide (length [Some 7; Some 9] = Z.to_nat 2)
            then if decide (Z.to_nat 2 = 0%nat) then ZeroDivisionError else TypeError
            else AssertionError "The vector sizes are not the same") /\
  compare_signatures [Some 7; Some 9] (replicate (Z.to_nat 2) None)
  = Raised (if decide (length [Some 7; Some 9] = Z.to_nat 2)
            then if decide (Z.to_nat 2 = 0%nat) then ZeroDivisionError else TypeError
            else AssertionError "The vector sizes are not the same").
Proof.
  apply (empty_shingle_set_signature (str "ab") 3 [1; 2] [2; 1] 2 4294967295
           [Some 7; Some 9]).
  reflexivity.
Defined.

Lemma items_get_crashed {V} (items : list (string * V)) key e :
  items_get items key = Crashed e -> e = KeyError key.
Proof.
  induction items as [|[key' v] items IH]; simpl; [by intros [= <-]|].
  by case_decide.
Qed.

Lemma generate_random_coefficient_main tape a rest :
  generate_random_coefficient max_hash_value no_of_hash_functions tape = Done a rest ->
  len a = 100.
Proof.
  intros Hrun. unfold generate_random_coefficient in Hrun.
  destruct (generate_loop_shape _ _ _ _ _ _ _ Hrun) as (used & new & _ & -> & Hlen & _).
  unfold len. simpl. rewrite Hlen. reflexivity.
Qed.

Section main_facts.
Variable reaches_threshold : Q -> bool.

(** X16. A run of the comparison block never stops on the length assertion
    of [compare_signatures], on an index out of range, on a division by zero
    or on a [ValueError]: an exception raised by one of the functions it
    calls is the [UnicodeEncodeError] of [shingling] or the [TypeError] of
    comparing a signature that holds [None]. *)
Theorem main_comparison_exceptions (parsed_docs_map : list (string * list Z))
    (user_books_list : list string) (k : Z) (tape : list Z) (e : exn) :
  main_comparison reaches_threshold parsed_docs_map user_books_list k tape
  = Failed (Uncaught e) ->
  e = UnicodeEncodeError \/ e = TypeError.
Proof.
  unfold main_comparison.
  pose proof (for_main_ind (fun _ => True)
                (fun e => forall e', e = Uncaught e' -> e' = UnicodeEncodeError)
                user_books_list (shingle_book parsed_docs_map k) ∅ I) as Hstage1.
  destruct (for_main user_books_list (shingle_book parsed_docs_map k) ∅)
    as [hashed|e1].
  2:{ intros [= ->]. left. apply Hstage1; [|done].
      intros book acc _ _. unfold shingle_book.
      destruct (items_get parsed_docs_map book) as [text|ek] eqn:Hget; simpl.
      2:{ apply items_get_crashed in Hget as ->. by intros ? [=]. }
      destruct (shingling text k) as [S|e''] eqn:Hsh; simpl; [done|].
      intros e' [= <-]. by eapply shingling_raises. }
  clear Hstage1.
  destruct (generate_random_coefficient max_hash_value no_of_hash_functions tape)
    as [a tape'|ea|] eqn:Ha; [| |done].
  2:{ exfalso. by eapply (generate_loop_no_fault max_hash_value). }
  destruct (generate_random_coefficient max_hash_value no_of_hash_functions tape')
    as [b tape''|eb|] eqn:Hb; [| |done].
  2:{ exfalso. by eapply (generate_loop_no_fault max_hash_value). }
  apply generate_random_coefficient_main in Ha, Hb.
  pose proof (for_main_ind
                (fun d : gmap string (list (option Z)) =>
                   map_Forall (fun _ sig => len sig = 100) d)
                (fun e => forall e', e <> Uncaught e')
                user_books_list (min_hash_book a b hashed) ∅) as Hstage3.
  destruct (for_main user_books_list (min_hash_book a b hashed) ∅) as [min_hashed|e3].
  2:{ simpl. intros [= ->]. exfalso. eapply Hstage3; [apply map_Forall_empty| |done].
      intros book acc _ Hacc. unfold min_hash_book, dict_get.
      destruct (hashed !! book) as [S|]; simpl; [|done].
      destruct (min_hashing_returns a b S no_of_hash_functions max_hash_value)
        as (sig & -> & Hsig); [done|by rewrite Ha|by rewrite Hb|done|].
      simpl. by apply map_Forall_insert_2. }
  assert (map_Forall (fun _ sig => len sig = 100) min_hashed) as Hlen.
  { apply Hstage3; [apply map_Forall_empty|].
    intros book acc _ Hacc. unfold min_hash_book, dict_get.
    destruct (hashed !! book) as [S|]; simpl; [|done].
    destruct (min_hashing_returns a b S no_of_hash_functions max_hash_value)
      as (sig & -> & Hsig); [done|by rewrite Ha|by rewrite Hb|done|].
    simpl. by apply map_Forall_insert_2. }
  clear Hstage3. simpl.
  pose proof (for_main_ind (fun _ => True)
                (fun e => forall e', e = Uncaught e' -> e' = TypeError)
                (combinations2 parsed_docs_map.*1)
                (compare_pair reaches_threshold min_hashed) ([], []) I) as Hstage4.
  destruct (for_main (combinations2 parsed_docs_map.*1)
              (compare_pair reaches_threshold min_hashed) ([], [])) as [books|e4]; [done|].
  intros [= ->]. right. apply Hstage4; [|done].
  intros combination acc _ _. unfold compare_pair, dict_get.
  destruct (min_hashed !! combination.1) as [sig1|] eqn:H1; simpl; [|by intros ? [=]].
  destruct (min_hashed !! combination.2) as [sig2|] eqn:H2; simpl; [|by intros ? [=]].
  apply Hlen in H1, H2.
  destruct (compare_signatures_same_length sig1 sig2) as [[q ->]| ->];
    [congruence|lia| |].
  - simpl. by destruct (reaches_threshold q).
  - simpl. by intros ? [= <-].
Qed.
End main_facts.

Lemma main_comparison_exceptions_witness :
  TypeError = UnicodeEncodeError \/ TypeError = TypeError.
Proof.
  apply (main_comparison_exceptions (fun q => Qle_bool (1 # 2) q)
           [("a"%string, str "abcabc"); ("b"%string, str "a")]
           ["a"%string; "b"%string] 2 (seqZ 0 100 ++ seqZ 50 100) TypeError).
  vm_compute. reflexivity.
Defined.

Lemma shingle_book_ok parsed_docs_map k book text S acc :
  items_get parsed_docs_map book = Completed text ->
  shingling text k = Returned S ->
  shingle_book parsed_docs_map k book acc = Completed (<[book := S]> acc).
Proof. intros Hget Hsh. unfold shingle_book. rewrite Hget. simpl. by rewrite Hsh. Qed.

Lemma min_hash_book_ok a b (hashed : gmap string (gset Z)) book S sig acc :
  hashed !! book = Some S ->
  min_hashing a b S no_of_hash_functions max_hash_value = Returned sig ->
  min_hash_book a b hashed book acc = Completed (<[book := sig]> acc).
Proof.
  intros HS Hsig. unfold min_hash_book, dict_get. rewrite HS. simpl. by rewrite Hsig.
Qed.

(** The shingle sets the first loop stores, book by book. *)
Lemma shingle_books_ok parsed_docs_map k books acc :
  (forall book, book ∈ books ->
     exists text, items_get parsed_docs_map book = Completed text /\ encodable text) ->
  exists hashed,
    for_main books (shingle_book parsed_docs_map k) acc = Completed hashed /\
    (forall book, book ∈ books ->
       exists text, items_get parsed_docs_map book = Completed text /\
                    hashed !! book = Some (list_to_set (shingle_of <$> windows text k))) /\
    (forall key, key ∉ books -> hashed !! key = acc !! key).
Proof.
  revert acc. induction books as [|b books IH]; intros acc Hbooks.
  - exists acc. split_and!; [done| |done]. intros book Hin. by apply elem_of_nil in Hin.
  - destruct (Hbooks b ltac:(left)) as (text & Hget & Henc).
    destruct (IH (<[b := list_to_set (shingle_of <$> windows text k)]> acc))
      as (hashed & Hrun & Hin & Hout).
    { intros book Hb. apply Hbooks. by right. }
    exists hashed. split_and!.
    + cbn [for_main].
      rewrite (shingle_book_ok _ _ _ _ _ _ Hget (shingling_encodable text k Henc)).
      exact Hrun.
    + intros book Hb. destruct (decide (book ∈ books)) as [Hbs|Hbs]; [by apply Hin|].
      apply elem_of_cons in Hb as [->|Hb]; [|done].
      exists text. split; [done|]. rewrite (Hout b Hbs). apply lookup_insert_eq.
    + intros key Hkey. apply not_elem_of_cons in Hkey as [Hne Hkey].
      rewrite (Hout key Hkey). by apply lookup_insert_ne.
Qed.

(** The signatures the second loop stores, book by book. *)
Lemma min_hash_books_ok a b (hashed : gmap string (gset Z)) books acc :
  len a = 100 -> len b = 100 ->
  (forall book, book ∈ books -> is_Some (hashed !! book)) ->
  exists min_hashed,
    for_main books (min_hash_book a b hashed) acc = Completed min_hashed /\
    (forall book, book ∈ books ->
       exists S sig, hashed !! book = Some S /\
         min_hashing a b S no_of_hash_functions max_hash_value = Returned sig /\
         min_hashed !! book = Some sig) /\
    (forall key, key ∉ books -> min_hashed !! key = acc !! key).
Proof.
  intros Ha Hb. revert acc. induction books as [|bk books IH]; intros acc Hbooks.
  - exists acc. split_and!; [done| |done]. intros book Hin. by apply elem_of_nil in Hin.
  - destruct (Hbooks bk ltac:(left)) as [S HS].
    destruct (min_hashing_returns a b S no_of_hash_functions max_hash_value)
      as (sig & Hsig & _); [done|by rewrite Ha|by rewrite Hb|done|].
    destruct (IH (<[bk := sig]> acc)) as (min_hashed & Hrun & Hin & Hout).
    { intros book Hbk. apply Hbooks. by right. }
    exists min_hashed. split_and!.
    + cbn [for_main]. rewrite (min_hash_book_ok _ _ _ _ _ _ _ HS Hsig). exact Hrun.
    + intros book Hbk. destruct (decide (book ∈ books)) as [Hbs|Hbs]; [by apply Hin|].
      apply elem_of_cons in Hbk as [->|Hbk]; [|done].
      exists S, sig. split_and!; [done..|]. rewrite (Hout bk Hbs). apply lookup_insert_eq.
    + intros key Hkey. apply not_elem_of_cons in Hkey as [Hne Hkey].
      rewrite (Hout key Hkey). by apply lookup_insert_ne.
Qed.

Lemma length_combinations2 {X} (l : list X) :
  (2 * length (combinations2 l) = length l * (length l - 1))%nat.
Proof.
  induction l as [|x l IH]; simpl; [done|].
  rewrite length_app, length_fmap. nia.
Qed.

Lemma elem_of_combinations2 {X} (l : list X) x y :
  (x, y) ∈ combinations2 l -> x ∈ l /\ y ∈ l.
Proof.
  induction l as [|z l IH]; simpl; [by intros ?%elem_of_nil|].
  intros [Hin|Hin]%elem_of_app.
  - apply list_elem_of_fmap in Hin as (y' & [= -> ->] & Hy). split; [by left|by right].
  - destruct (IH Hin). split; by right.
Qed.

Lemma combinations2_lookup {X} (l : list X) (i j : nat) x y :
  (i < j)%nat -> l !! i = Some x -> l !! j = Some y -> (x, y) ∈ combinations2 l.
Proof.
  revert i j. induction l as [|z l IH]; intros i j Hij Hi Hj; [done|].
  simpl. apply elem_of_app. destruct i as [|i].
  - left. injection Hi as ->. destruct j as [|j]; [lia|]. simpl in Hj.
    apply list_elem_of_fmap. exists y. split; [done|].
    apply list_elem_of_lookup. by exists j.
  - right. destruct j as [|j]; [lia|]. simpl in Hi, Hj. eapply (IH i j); [lia|done..].
Qed.

Lemma compare_signatures_ints_range zs1 zs2 :
  length zs1 = length zs2 -> zs1 <> [] ->
  exists q, compare_signatures (Some <$> zs1) (Some <$> zs2) = Returned q /\
            (0 <= q <= 1)%Q.
Proof.
  intros Hlen Hne. eexists. split; [by apply compare_signatures_ints|].
  assert (0 < len zs1) as Hpos by (unfold len; destruct zs1; [done | simpl; lia]).
  pose proof (size_list_to_set_le zs1) as Hle.
  assert (size (list_to_set zs1 ∩ list_to_set zs2 : gset Z) <= size (list_to_set zs1 : gset Z))%nat
    by (apply subseteq_size; set_solver).
  unfold len in *. split; unfold Qle; simpl; rewrite ?Z2Pos.id by done; lia.
Qed.

Lemma for_main_raises_at {X St} (body : X -> St -> main_outcome St) xs x E :
  x ∈ xs -> (forall acc, body x acc = Crashed E) ->
  (forall y acc e, y ∈ xs -> body y acc = Crashed e -> e = E) ->
  forall acc, for_main xs body acc = Crashed E.
Proof.
  intros Hin Hx. induction Hin as [x xs|x y xs _ IH]; intros Hall acc; simpl.
  - by rewrite Hx.
  - destruct (body y acc) as [a|e] eqn:Hy; simpl.
    + apply IH; [done|]. intros z a' e' Hz. apply Hall. by right.
    + f_equal. eapply Hall; [by left|done].
Qed.

Section main_runs.
Variable reaches_threshold : Q -> bool.

(** The loop over the pairs when every signature is a list of 100 ints. *)
Lemma compare_pairs_ok (min_hashed : gmap string (list (option Z)))
    (combos : list (string * string)) books :
  (forall c, c ∈ combos ->
     exists zs1 zs2, min_hashed !! c.1 = Some (Some <$> zs1) /\
                     min_hashed !! c.2 = Some (Some <$> zs2) /\
                     length zs1 = 100%nat /\ length zs2 = 100%nat) ->
  exists sim not_sim,
    for_main combos (compare_pair reaches_threshold min_hashed) books
    = Completed (books.1 ++ sim, books.2 ++ not_sim) /\
    (fst <$> sim) ++ (fst <$> not_sim) ≡ₚ combos /\
    Forall (fun t => reaches_threshold t.2 = true /\ (0 <= t.2 <= 1)%Q) sim /\
    Forall (fun t => reaches_threshold t.2 = false /\ (0 <= t.2 <= 1)%Q) not_sim.
Proof.
  revert books. induction combos as [|c combos IH]; intros books Hsigs.
  - exists [], []. simpl. rewrite !app_nil_r. by destruct books.
  - destruct (Hsigs c ltac:(left)) as (zs1 & zs2 & H1 & H2 & Hl1 & Hl2).
    destruct (compare_signatures_ints_range zs1 zs2) as (q & Hq & Hrange);
      [congruence|by destruct zs1|].
    assert (forall b, compare_pair reaches_threshold min_hashed c b
              = if reaches_threshold q
                then Completed (b.1 ++ [(c.1, c.2, q)], b.2)
                else Completed (b.1, b.2 ++ [(c.1, c.2, q)])) as Hbody.
    { intros b. unfold compare_pair, dict_get. rewrite H1, H2. simpl. rewrite Hq. simpl.
      by destruct (reaches_threshold q). }
    cbn [for_main]. rewrite Hbody.
    assert (forall c', c' ∈ combos ->
       exists zs1 zs2, min_hashed !! c'.1 = Some (Some <$> zs1) /\
                       min_hashed !! c'.2 = Some (Some <$> zs2) /\
                       length zs1 = 100%nat /\ length zs2 = 100%nat) as Hsigs'
      by (intros c' Hc'; apply Hsigs; by right).
    destruct (reaches_threshold q) eqn:Hrt; simpl.
    + destruct (IH (books.1 ++ [(c.1, c.2, q)], books.2) Hsigs')
        as (sim & not_sim & -> & Hperm & Hsim & Hnot).
      exists ((c.1, c.2, q) :: sim), not_sim. simpl. split_and!.
      * by rewrite <- app_assoc.
      * destruct c. simpl. by rewrite Hperm.
      * by constructor.
      * done.
    + destruct (IH (books.1, books.2 ++ [(c.1, c.2, q)]) Hsigs')
        as (sim & not_sim & -> & Hperm & Hsim & Hnot).
      exists sim, ((c.1, c.2, q) :: not_sim). simpl. split_and!.
      * by rewrite <- app_assoc.
      * destruct c. simpl. by rewrite <- Permutation_middle, Hperm.
      * done.
      * by constructor.
Qed.

(** X17. When every book has at least [k] encodable characters and the two
    series of 100 draws hold no repeated value, a run of the block finishes
    and reports every unordered pair of books exactly once, [n (n - 1) / 2]
    pairs in all: each with a score between 0 and 1, in [sim_books] when the
    score passes the threshold test and in [not_sim_books] when it does
    not. *)
Theorem main_comparison_reports (parsed_docs_map : list (string * list Z))
    (user_books_list : list string) (k : Z) (draws_a draws_b rest : list Z) :
  (forall book, book ∈ user_books_list ->
     exists text, items_get parsed_docs_map book = Completed text /\
                  encodable text /\ k <= len text) ->
  (forall key, key ∈ parsed_docs_map.*1 -> key ∈ user_books_list) ->
  NoDup draws_a -> len draws_a = 100 -> NoDup draws_b -> len draws_b = 100 ->
  exists sim_books not_sim_books,
    main_comparison reaches_threshold parsed_docs_map user_books_list k
      (draws_a ++ draws_b ++ rest) = Finished (sim_books, not_sim_books) /\
    (fst <$> sim_books) ++ (fst <$> not_sim_books) ≡ₚ combinations2 parsed_docs_map.*1 /\
    Forall (fun t => reaches_threshold t.2 = true /\ (0 <= t.2 <= 1)%Q) sim_books /\
    Forall (fun t => reaches_threshold t.2 = false /\ (0 <= t.2 <= 1)%Q) not_sim_books /\
    (2 * (length sim_books + length not_sim_books)
     = length parsed_docs_map * (length parsed_docs_map - 1))%nat.
Proof.
  intros Hbooks Hkeys Hnda Hla Hndb Hlb.
  destruct (shingle_books_ok parsed_docs_map k user_books_list ∅)
    as (hashed & Hrun1 & Hin1 & _).
  { intros book Hb. destruct (Hbooks book Hb) as (text & ? & ? & ?). eauto. }
  destruct (min_hash_books_ok draws_a draws_b hashed user_books_list ∅ Hla Hlb)
    as (min_hashed & Hrun3 & Hin3 & _).
  { intros book Hb. destruct (Hin1 book Hb) as (text & _ & ->). eauto. }
  destruct (compare_pairs_ok min_hashed (combinations2 parsed_docs_map.*1) ([], []))
    as (sim & not_sim & Hrun4 & Hperm & Hsim & Hnot).
  { assert (forall key, key ∈ parsed_docs_map.*1 ->
              exists zs, min_hashed !! key = Some (Some <$> zs) /\ length zs = 100%nat)
      as Hsig.
    { intros key Hkey. apply Hkeys in Hkey.
      destruct (Hin3 key Hkey) as (S & sig & HS & Hsig & Hmh).
      destruct (Hin1 key Hkey) as (text & Hget & HS').
      destruct (Hbooks key Hkey) as (text' & Hget' & Henc & Hlen).
      assert (text' = text) as -> by congruence.
      assert (S <> ∅) as Hne.
      { rewrite HS in HS'. injection HS' as ->. by apply shingling_nonempty. }
      destruct (min_hashing_ints draws_a draws_b S no_of_hash_functions max_hash_value)
        as (zs & Hzs & Hlzs); [done|by rewrite Hla|by rewrite Hlb|done|].
      exists zs. split; [|done]. rewrite Hmh. congruence. }
    intros [c1 c2] Hc. apply elem_of_combinations2 in Hc as [Hc1 Hc2].
    destruct (Hsig c1 Hc1) as (zs1 & ? & ?). destruct (Hsig c2 Hc2) as (zs2 & ? & ?).
    by exists zs1, zs2. }
  exists sim, not_sim. split_and!; [|done..|].
  - unfold main_comparison. rewrite Hrun1.
    unfold generate_random_coefficient.
    rewrite (generate_loop_distinct max_hash_value (Z.to_nat no_of_hash_functions)
               ∅ [] draws_a (draws_b ++ rest)); [|done|done|unfold len, no_of_hash_functions in *; lia|set_solver].
    rewrite (generate_loop_distinct max_hash_value (Z.to_nat no_of_hash_functions)
               ∅ [] draws_b rest); [|done|done|unfold len, no_of_hash_functions in *; lia|set_solver].
    simpl app at 1 2. rewrite Hrun3. simpl. by rewrite Hrun4.
  - apply Permutation_length in Hperm.
    rewrite length_app, !length_fmap in Hperm. rewrite Hperm.
    rewrite length_combinations2. by rewrite length_fmap.
Qed.
End main_runs.

Lemma main_comparison_reports_witness :
  exists sim_books not_sim_books,
    main_comparison (fun q => Qle_bool (1 # 2) q)
      [("a"%string, str "abcabc"); ("b"%string, str "abcabd")]
      ["a"%string; "b"%string] 2
      (seqZ 0 100 ++ seqZ 50 100 ++ []) = Finished (sim_books, not_sim_books) /\
    (fst <$> sim_books) ++ (fst <$> not_sim_books)
      ≡ₚ combinations2 [("a"%string, str "abcabc"); ("b"%string, str "abcabd")].*1 /\
    Forall (fun t => Qle_bool (1 # 2) t.2 = true /\ (0 <= t.2 <= 1)%Q) sim_books /\
    Forall (fun t => Qle_bool (1 # 2) t.2 = false /\ (0 <= t.2 <= 1)%Q) not_sim_books /\
    (2 * (length sim_books + length not_sim_books)
     = length [("a"%string, str "abcabc"); ("b"%string, str "abcabd")]
       * (length [("a"%string, str "abcabc"); ("b"%string, str "abcabd")] - 1))%nat.
Proof.
  apply (main_comparison_reports (fun q => Qle_bool (1 # 2) q)
           [("a"%string, str "abcabc"); ("b"%string, str "abcabd")]
           ["a"%string; "b"%string] 2 (seqZ 0 100) (seqZ 50 100) []).
  - intros book Hb. apply elem_of_cons in Hb as [->|Hb].
    + exists (str "abcabc"). split_and!; [reflexivity|repeat constructor|].
      vm_compute. discriminate.
    + apply elem_of_cons in Hb as [->|Hb]; [|by apply elem_of_nil in Hb].
      exists (str "abcabd"). split_and!; [reflexivity|repeat constructor|].
      vm_compute. discriminate.
  - intros key Hkey. exact Hkey.
  - apply NoDup_seqZ.
  - reflexivity.
  - apply NoDup_seqZ.
  - reflexivity.
Defined.

Section main_short.
Variable reaches_threshold : Q -> bool.

(** X18. One book shorter than [k] stops the whole run: with two or more
    books, all of them encodable, and draws that hold no repeated value,
    the block raises [TypeError] when it compares the signatures, and
    reports no pair at all. *)
Theorem main_comparison_short_book (parsed_docs_map : list (string * list Z))
    (user_books_list : list string) (k : Z) (book0 : string) (text0 : list Z)
    (draws_a draws_b rest : list Z) :
  (forall book, book ∈ user_books_list ->
     exists text, items_get parsed_docs_map book = Completed text /\ encodable text) ->
  (forall key, key ∈ parsed_docs_map.*1 -> key ∈ user_books_list) ->
  book0 ∈ parsed_docs_map.*1 ->
  items_get parsed_docs_map book0 = Completed text0 -> len text0 < k ->
  (2 <= length parsed_docs_map)%nat ->
  NoDup draws_a -> len draws_a = 100 -> NoDup draws_b -> len draws_b = 100 ->
  main_comparison reaches_threshold parsed_docs_map user_books_list k
    (draws_a ++ draws_b ++ rest) = Failed (Uncaught TypeError).
Proof.
  intros Hbooks Hkeys Hbook0 Hget0 Hshort Hn Hnda Hla Hndb Hlb.
  destruct (shingle_books_ok parsed_docs_map k user_books_list ∅ Hbooks)
    as (hashed & Hrun1 & Hin1 & _).
  destruct (min_hash_books_ok draws_a draws_b hashed user_books_list ∅ Hla Hlb)
    as (min_hashed & Hrun3 & Hin3 & _).
  { intros book Hb. destruct (Hin1 book Hb) as (text & _ & ->). eauto. }
  assert (forall key, key ∈ parsed_docs_map.*1 ->
            exists sig, min_hashed !! key = Some sig /\ len sig = 100) as Hsig.
  { intros key Hkey. apply Hkeys in Hkey.
    destruct (Hin3 key Hkey) as (S & sig & _ & Hsig & Hmh).
    destruct (min_hashing_returns draws_a draws_b S no_of_hash_functions max_hash_value)
      as (sig' & Hsig' & Hlen); [done|by rewrite Hla|by rewrite Hlb|done|].
    exists sig. split; [done|]. rewrite Hsig in Hsig'. injection Hsig' as <-. exact Hlen. }
  assert (exists sig0, min_hashed !! book0 = Some sig0 /\ None ∈ sig0) as (sig0 & Hmh0 & Hnone).
  { destruct (Hin3 book0 (Hkeys _ Hbook0)) as (S & sig & HS & Hsig0 & Hmh).
    destruct (Hin1 book0 (Hkeys _ Hbook0)) as (text & Hget & HS').
    assert (text = text0) as -> by congruence.
    assert (S = ∅) as ->.
    { rewrite HS in HS'. injection HS' as ->. unfold windows, range.
      by rewrite seqZ_nil by lia. }
    rewrite min_hashing_empty in Hsig0. injection Hsig0 as <-.
    exists (replicate (Z.to_nat no_of_hash_functions) None). split; [done|].
    apply elem_of_replicate. done. }
  assert (forall c acc e, c ∈ combinations2 parsed_docs_map.*1 ->
            compare_pair reaches_threshold min_hashed c acc = Crashed e ->
            e = Uncaught TypeError) as Honly.
  { intros [c1 c2] acc e Hc. apply elem_of_combinations2 in Hc as [Hc1 Hc2].
    destruct (Hsig c1 Hc1) as (sig1 & H1 & Hl1). destruct (Hsig c2 Hc2) as (sig2 & H2 & Hl2).
    unfold compare_pair, dict_get. simpl. rewrite H1, H2. simpl.
    destruct (compare_signatures_same_length sig1 sig2) as [[q ->]| ->];
      [congruence|lia| |].
    - simpl. by destruct (reaches_threshold q).
    - simpl. by intros [= <-]. }
  assert (exists c, c ∈ combinations2 parsed_docs_map.*1 /\ (c.1 = book0 \/ c.2 = book0))
    as (c0 & Hc0 & Hwhich).
  { apply list_elem_of_lookup in Hbook0 as [p Hp].
    assert (length parsed_docs_map.*1 = length parsed_docs_map) as Hlen
      by apply length_fmap.
    destruct p as [|p].
    - destruct (lookup_lt_is_Some_2 parsed_docs_map.*1 1) as [y Hy]; [lia|].
      exists (book0, y). split; [|by left].
      apply (combinations2_lookup _ 0 1); [lia|done..].
    - destruct (lookup_lt_is_Some_2 parsed_docs_map.*1 0) as [y Hy]; [lia|].
      exists (y, book0). split; [|by right].
      apply (combinations2_lookup _ 0 (S p)); [lia|done..]. }
  assert (forall acc, compare_pair reaches_threshold min_hashed c0 acc
                      = Crashed (Uncaught TypeError)) as Hcrash.
  { intros acc. destruct c0 as [c1 c2].
    pose proof Hc0 as Hc. apply elem_of_combinations2 in Hc as [Hc1 Hc2].
    destruct (Hsig c1 Hc1) as (sig1 & H1 & Hl1). destruct (Hsig c2 Hc2) as (sig2 & H2 & Hl2).
    assert (None ∈ sig1 \/ None ∈ sig2) as Hn12.
    { simpl in Hwhich. destruct Hwhich as [->| ->]; [left|right]; congruence. }
    destruct (compare_signatures_None sig1 sig2 Hn12) as [e He].
    destruct (compare_signatures_same_length sig1 sig2) as [[q Hq]|Hty];
      [congruence|lia|congruence|].
    unfold compare_pair, dict_get. simpl. rewrite H1, H2. simpl. by rewrite Hty. }
  unfold main_comparison. rewrite Hrun1.
  unfold generate_random_coefficient.
  rewrite (generate_loop_distinct max_hash_value (Z.to_nat no_of_hash_functions)
             ∅ [] draws_a (draws_b ++ rest));
    [|done|done|unfold len, no_of_hash_functions in *; lia|set_solver].
  rewrite (generate_loop_distinct max_hash_value (Z.to_nat no_of_hash_functions)
             ∅ [] draws_b rest);
    [|done|done|unfold len, no_of_hash_functions in *; lia|set_solver].
  simpl app at 1 2. rewrite Hrun3. simpl.
  by rewrite (for_main_raises_at _ _ c0 (Uncaught TypeError) Hc0 Hcrash).
Qed.
End main_short.

Lemma main_comparison_short_book_witness :
  main_comparison (fun q => Qle_bool (1 # 2) q)
    [("a"%string, str "abcabc"); ("b"%string, str "a")]
    ["a"%string; "b"%string] 2
    (seqZ 0 100 ++ seqZ 50 100 ++ []) = Failed (Uncaught TypeError).
Proof.
  apply (main_comparison_short_book (fun q => Qle_bool (1 # 2) q)
           [("a"%string, str "abcabc"); ("b"%string, str "a")]
           ["a"%string; "b"%string] 2 "b"%string (str "a")
           (seqZ 0 100) (seqZ 50 100) []).
  - intros book Hb. apply elem_of_cons in Hb as [->|Hb].
    + exists (str "abcabc"). split; [reflexivity|repeat constructor].
    + apply elem_of_cons in Hb as [->|Hb]; [|by apply elem_of_nil in Hb].
      exists (str "a"). split; [reflexivity|repeat constructor].
  - intros key Hkey. exact Hkey.
  - right. left.
  - reflexivity.
  - reflexivity.
  - simpl. lia.
  - apply NoDup_seqZ.
  - reflexivity.
  - apply NoDup_seqZ.
  - reflexivity.
Defined.
